(** * Ceres bundle adjustment (arrows/ceres/bundle_adjust.cxx)

    A shallow embedding of [kwiver::arrows::ceres::bundle_adjust]:
    [check_configuration] and [optimize].

    - Maps ([std::map]) are stdpp [gmap]s, vectors are lists, nullable shared
      pointers are [option]s, [double]s are primitive binary64 floats.
    - A loop over a [std::map] is a [map_fold].  Its order is fixed but is not
      the key order; every such loop of [optimize] writes, at each step, the
      entry of the key it visits, so the result does not depend on the order
      (only the numbering of the intrinsics groups does).
    - The Ceres library and the declarations of arrows/ceres/types.h and
      arrows/ceres/options.h are outside the verified sources; what [optimize]
      uses of them is gathered in the class [CeresEnv].  The problem is the
      record of the calls made on it, and the solver writes to the parameter
      blocks of the problem and to nothing else.
    - A call is described by its result and by the trace of what it did
      (problem constructed, loss function created or deleted, solver run,
      messages logged). *)

From Stdlib Require Import Floats.PrimFloat ZArith NArith.
From stdpp Require Import gmap strings list fin_maps.

Open Scope Z_scope.

(** ** Vital types *)

Abbreviation double := float.
Abbreviation frame_id_t := Z.   (* int64_t *)
Abbreviation track_id_t := Z.   (* int64_t *)

Record vector_2d := Vec2 { v2x : double; v2y : double }.
Record vector_3d := Vec3 { v3x : double; v3y : double; v3z : double }.

(** [std::vector<double>(loc.data(), loc.data()+3)] *)
Definition vector_3d_data (v : vector_3d) : list double := [v3x v; v3y v; v3z v].

(** [Eigen::Map<const vector_3d>(&p[0])]: the three doubles starting at the
    address of the first.  The source reads them without a bounds check: on a
    vector with fewer than three entries the read leaves the buffer and is
    undefined ([None]). *)
Definition map_vector_3d (p : list double) : option vector_3d :=
  match p with
  | x :: y :: z :: _ => Some (Vec3 x y z)
  | _ => None
  end.

Record rgb_color := Rgb { red : Z; green : Z; blue : Z }.

(** Modelled from the spec: the landmark type (vital/types/landmark.h is
    outside the verified sources).  A landmark has a 3D position and further
    attributes, "color, covariance, etc., if present". *)
Record landmark := Landmark {
  loc : vector_3d;
  color : option rgb_color;
  covar : option (list double);
}.

Definition set_loc (l : vector_3d) (lm : landmark) : landmark :=
  {| loc := l; color := color lm; covar := covar lm |}.

(** Modelled from the spec: [landmark_d]'s constructor from a landmark, used by
    [std::make_shared<landmark_d>( *lmi )]; the new value carries every
    attribute of the original. *)
Definition landmark_d_copy (lm : landmark) : landmark :=
  {| loc := loc lm; color := color lm; covar := covar lm |}.

(** Modelled from the spec: a track (vital/types/track.h): a track ID and an
    ordered history of observations, each binding a frame ID to a 2D feature
    location ([ts->frame_id], [ts->feat->loc()]). *)
Record track_state := TrackState { frame_id : frame_id_t; feat_loc : vector_2d }.
Record track := Track { id : track_id_t; history : list track_state }.

(** Modelled from the spec: a camera has extrinsic parameters, serialized as a
    fixed-length numeric vector, and a reference to an intrinsics instance that
    several cameras may share.  The reference is a pointer; the instances live
    in the store that comes with the collection. *)
Abbreviation intrinsics_ptr := nat.
Record camera := Camera {
  cam_extrinsics : list double;
  cam_intrinsics : option intrinsics_ptr;
}.

(** Modelled from the spec: the camera collection: frame ID to camera, together
    with the intrinsics instances the cameras point to (focal length, principal
    point x and y, aspect ratio, skew, distortion coefficients). *)
Record camera_map := CameraMap {
  cameras_of : gmap Z camera;
  intrinsics_of : gmap nat (list double);
}.

Abbreviation camera_map_sptr := (option camera_map).
Abbreviation landmark_map_sptr := (option (gmap Z landmark)).
Abbreviation track_set_sptr := (option (list track)).
Abbreviation config_block_sptr := (option (gmap string string)).

(** ** The Ceres problem as [optimize] builds it *)

(** A parameter block is the address of the first double of a vector held in
    one of the three containers of [optimize]:
    [&camera_intr_params[i][0]], [&camera_params[f][0]], [&landmark_params[t][0]]. *)
Inductive param_block :=
| IntrBlock (i : nat)
| CamBlock (f : frame_id_t)
| LmBlock (t : track_id_t).

#[global] Instance param_block_eq_dec : EqDecision param_block.
Proof. solve_decision. Defined.

(** One [Problem::AddResidualBlock(cost, loss, p0, p1, p2)] call. *)
Record residual_block (C L : Type) := ResidualBlock {
  rb_cost : C;
  rb_loss : option L;
  rb_params : list param_block;
}.
Arguments ResidualBlock {C L} _ _ _.
Arguments rb_cost {C L} _.
Arguments rb_loss {C L} _.
Arguments rb_params {C L} _.

(** [::ceres::Problem], as a record of the calls made on it. *)
Record Problem (C L : Type) := MkProblem {
  residual_blocks : list (residual_block C L);
  constant_blocks : list param_block;
  (* SetParameterization(block, new SubsetParameterization(size, constant)),
     with [int size] and [std::vector<int> constant] *)
  parameterizations : list (param_block * (Z * list Z));
}.
Arguments MkProblem {C L} _ _ _.
Arguments residual_blocks {C L} _.
Arguments constant_blocks {C L} _.
Arguments parameterizations {C L} _.

Definition empty_problem {C L} : Problem C L := MkProblem [] [] [].

Definition AddResidualBlock {C L} (p : Problem C L) (cost : C) (loss : option L)
    (p0 p1 p2 : param_block) : Problem C L :=
  MkProblem (residual_blocks p ++ [ResidualBlock cost loss [p0; p1; p2]])
            (constant_blocks p) (parameterizations p).

Definition SetParameterBlockConstant {C L} (p : Problem C L) (b : param_block)
    : Problem C L :=
  MkProblem (residual_blocks p) (constant_blocks p ++ [b]) (parameterizations p).

Definition SetParameterization {C L} (p : Problem C L) (b : param_block)
    (size : Z) (constant : list Z) : Problem C L :=
  MkProblem (residual_blocks p) (constant_blocks p)
            (parameterizations p ++ [(b, (size, constant))]).

(** The parameter blocks Ceres holds a pointer to: those handed to
    [AddResidualBlock]. *)
Definition problem_blocks {C L} (p : Problem C L) : list param_block :=
  concat (rb_params <$> residual_blocks p).

(** ** What [optimize] uses and bundle_adjust.cxx does not define *)

Class CeresEnv := {
  (* ::ceres::Solver::Options and its IsValid(std::string* msg) *)
  SolverOptions : Type;
  IsValid : SolverOptions → bool * string;
  (* ::ceres::LossFunction, ::ceres::CostFunction *)
  LossFunction : Type;
  CostFunction : Type;
  (* arrows/ceres/types.h *)
  LossFunctionType : Type;
  LossFunctionFactory : LossFunctionType → double → option LossFunction;
  LensDistortionType : Type;
  num_distortion_params : LensDistortionType → N;      (* unsigned int *)
  create_cost_func : LensDistortionType → double → double → CostFunction;
  (* arrows/ceres/options.h: class camera_options *)
  camera_options : Type;
  lens_distortion_type : camera_options → LensDistortionType;
  enumerate_constant_intrinsics : camera_options → list Z;   (* std::vector<int> *)
  (* ::ceres::Solve(options, &problem, &summary): from the options, the problem
     and the current values of the blocks, new values for the blocks and the
     text of summary.FullReport() *)
  Solve : SolverOptions → Problem CostFunction LossFunction →
          (param_block → list double) → (param_block → list double) * string;
}.

Abbreviation problem_t := (Problem CostFunction LossFunction).

Section Model.
Context `{CeresEnv}.

(** ** The algorithm object *)

(** [bundle_adjust::priv]: the solver options and the camera options it
    inherits, and its own three settings. *)
Record priv := Priv {
  options : SolverOptions;
  cam_opts : camera_options;
  verbose : bool;
  loss_function_type : LossFunctionType;
  loss_function_scale : double;
}.

Inductive severity := ERROR | DEBUG.

(** What a call does besides computing its result, in the order it happens. *)
Inductive event :=
| EvIsValid (o : SolverOptions)                 (* options.IsValid(&msg) *)
| EvLog (s : severity) (msg : string)           (* LOG_ERROR, LOG_DEBUG *)
| EvProblem                                     (* ::ceres::Problem problem; *)
| EvLossFunctionFactory (l : option LossFunction) (* the call and the pointer it gave *)
| EvDeleteLoss (l : LossFunction)               (* delete loss_func; *)
| EvSolve (o : SolverOptions) (p : problem_t)   (* ::ceres::Solve(...) *)
| EvProblemDestroyed (p : problem_t).           (* the local goes out of scope *)

(** ** check_configuration *)

Definition check_configuration (d : priv) (config : config_block_sptr)
    : bool * list event :=
  let '(valid, msg) := IsValid (options d) in
  if negb valid
  then (false, [EvIsValid (options d); EvLog ERROR msg])
  else (true, [EvIsValid (options d)]).

(** ** The parameter containers of [optimize] *)

Record param_store := ParamStore {
  landmark_params : gmap Z (list double);      (* lm_param_map_t *)
  camera_params : gmap Z (list double);        (* cam_param_map_t *)
  camera_intr_params : list (list double);
}.

(** The vector a block address points into, when there is one. *)
Definition lookup_block (s : param_store) (b : param_block) : option (list double) :=
  match b with
  | IntrBlock i => camera_intr_params s !! i
  | CamBlock f => camera_params s !! f
  | LmBlock t => landmark_params s !! t
  end.

Definition read_block (s : param_store) (b : param_block) : list double :=
  default [] (lookup_block s b).

(** The solver writes through the pointer it was given: the buffer keeps its
    size and takes the new values. *)
Definition overwrite (new old : list double) : list double :=
  take (length old) new ++ drop (length new) old.

Definition write_block (b : param_block) (new : list double) (s : param_store)
    : param_store :=
  match b with
  | IntrBlock i =>
      ParamStore (landmark_params s) (camera_params s)
                 (alter (overwrite new) i (camera_intr_params s))
  | CamBlock f =>
      ParamStore (landmark_params s) (alter (overwrite new) f (camera_params s))
                 (camera_intr_params s)
  | LmBlock t =>
      ParamStore (alter (overwrite new) t (landmark_params s)) (camera_params s)
                 (camera_intr_params s)
  end.

(** [::ceres::Solve(d_->options, &problem, &summary)]: the blocks of the problem
    are updated in place; the report is returned. *)
Definition run_solver (o : SolverOptions) (p : problem_t) (s : param_store)
    : param_store * string :=
  let '(values, report) := Solve o p (read_block s) in
  (foldr (λ b, write_block b (values b)) s (problem_blocks p), report).

(** Lines 210-217: the landmark locations as a mutable map. *)
Definition extract_landmark_params (lms : gmap Z landmark) : gmap Z (list double) :=
  (λ lm, vector_3d_data (loc lm)) <$> lms.

(** ** Camera parameter extraction and update (camera_options) *)

(** Modelled from the spec: distortion coefficients are flattened to the length
    the lens-distortion model declares, zero-padded or truncated; the block has
    5 + D entries (focal length, principal point x and y, aspect ratio, skew,
    D distortion coefficients). *)
Definition flatten_intrinsics (ndp : N) (K : list double) : list double :=
  resize (5 + N.to_nat ndp)%nat 0%float K.

Record extraction := Extraction {
  ext_params : gmap Z (list double);     (* frame -> extrinsics vector *)
  int_params : list (list double);       (* the unique intrinsics vectors *)
  int_map : gmap Z nat;                  (* frame -> index into int_params *)
  seen_intrinsics : gmap nat nat;        (* instance -> its index *)
}.

(** Modelled from the spec: one camera of the collection.  A camera without a
    resolvable intrinsics reference is a configuration error ([None]); two
    cameras get the same group exactly when they point to the same instance. *)
Definition extract_camera (ndp : N) (intrinsics : gmap nat (list double))
    (f : Z) (c : camera) (acc : option extraction) : option extraction :=
  e ← acc;
  ptr ← cam_intrinsics c;
  K ← intrinsics !! ptr;
  match seen_intrinsics e !! ptr with
  | Some i =>
      Some (Extraction (<[f := cam_extrinsics c]> (ext_params e)) (int_params e)
                       (<[f := i]> (int_map e)) (seen_intrinsics e))
  | None =>
      let i := length (int_params e) in
      Some (Extraction (<[f := cam_extrinsics c]> (ext_params e))
                       (int_params e ++ [flatten_intrinsics ndp K])
                       (<[f := i]> (int_map e))
                       (<[ptr := i]> (seen_intrinsics e)))
  end.

(** Modelled from the spec: [camera_options::extract_camera_parameters]
    (arrows/ceres/options.cxx is outside the verified sources): from the
    camera collection, the map from frame ID to extrinsics vector, the list of
    unique intrinsics vectors and the map from frame ID to the index of the
    frame's intrinsics group in that list. *)
Definition extract_camera_parameters (co : camera_options) (cams : camera_map)
    : option extraction :=
  map_fold (extract_camera (num_distortion_params (lens_distortion_type co))
                           (intrinsics_of cams))
           (Some (Extraction ∅ [] ∅ ∅)) (cameras_of cams).

(** Modelled from the spec: [camera_options::update_camera_parameters]: a
    camera collection where each frame maps to a camera whose extrinsics are the
    updated vector and whose intrinsics reference the updated (possibly shared)
    intrinsics-group value; group [i] becomes the instance at address [i]. *)
Definition update_camera_parameters (ext : gmap Z (list double))
    (intr : list (list double)) (imap_ : gmap Z nat) : camera_map :=
  CameraMap
    (map_imap (λ f e, Some (Camera e (imap_ !! f))) ext)
    (map_seq 0 intr).

(** The intrinsics values a camera of a collection points to. *)
Definition camera_intrinsics_values (cm : camera_map) (c : camera)
    : option (list double) :=
  ptr ← cam_intrinsics c; intrinsics_of cm !! ptr.

(** ** The residual loop (lines 246-275) *)

(** [std::map::operator[]]: the value at the key, inserting a zero when the key
    is absent. *)
Definition map_subscript (m : gmap Z nat) (k : Z) : nat * gmap Z nat :=
  match m !! k with
  | Some v => (v, m)
  | None => (0%nat, <[k := 0%nat]> m)
  end.

Record build_state := BuildState {
  bs_problem : problem_t;
  bs_frame_to_intr_map : gmap Z nat;
  bs_loss_func_used : bool;
}.

(** A left fold whose step may be undefined ([None]). *)
Fixpoint foldl_opt {A B} (f : A → B → option A) (a : A) (l : list B) : option A :=
  match l with
  | [] => Some a
  | x :: l => a' ← f a x; foldl_opt f a' l
  end.

(** The body of the inner loop, for one observation of the track [t_id].
    [camera_intr_params[intr_idx]] is an unchecked vector subscript: out of
    range it is undefined ([None]). *)
Definition add_observation (d : priv) (s : param_store) (loss_func : option LossFunction)
    (t_id : Z) (st : build_state) (ts : track_state) : option build_state :=
  match camera_params s !! frame_id ts with
  | None => Some st
  | Some _ =>
      let '(intr_idx, m) := map_subscript (bs_frame_to_intr_map st) (frame_id ts) in
      match camera_intr_params s !! intr_idx with
      | None => None
      | Some _ =>
          let pt := feat_loc ts in
          Some (BuildState
                  (AddResidualBlock (bs_problem st)
                     (create_cost_func (lens_distortion_type (cam_opts d)) (v2x pt) (v2y pt))
                     loss_func
                     (IntrBlock intr_idx) (CamBlock (frame_id ts)) (LmBlock t_id))
                  m true)
      end
  end.

(** The body of the outer loop, for one track. *)
Definition add_track (d : priv) (s : param_store) (loss_func : option LossFunction)
    (st : build_state) (t : track) : option build_state :=
  match landmark_params s !! id t with
  | None => Some st
  | Some _ => foldl_opt (add_observation d s loss_func (id t)) st (history t)
  end.

Definition add_residuals (d : priv) (s : param_store) (loss_func : option LossFunction)
    (st : build_state) (trks : list track) : option build_state :=
  foldl_opt (add_track d s loss_func) st trks.

(** ** The intrinsics constraints (lines 277-292) *)

(** Arithmetic on [unsigned int]. *)
Definition wrap32 (n : N) : N := (n mod 2 ^ 32)%N.

(** An [unsigned int] handed to a parameter of type [int], as the size of a
    [SubsetParameterization] is: the value when it is below 2^31, the value
    less 2^32 (a negative number) from there on. *)
Definition to_int (n : N) : Z :=
  if decide (n < 2 ^ 31)%N then Z.of_N n else Z.of_N n - 2 ^ 32.

(** The body of the loop, for the intrinsics block at index [i]. *)
Definition constrain_block (ndp : N) (constant_intrinsics : list Z)
    (p : problem_t) (i : nat) : problem_t :=
  if decide (wrap32 (4 + ndp) < N.of_nat (length constant_intrinsics))%N
  then SetParameterBlockConstant p (IntrBlock i)
  else if negb (bool_decide (constant_intrinsics = []))
  then SetParameterization p (IntrBlock i) (to_int (wrap32 (5 + ndp)))
                           constant_intrinsics
  else p.

Definition apply_constraints (ndp : N) (constant_intrinsics : list Z)
    (camera_intr_params : list (list double)) (p : problem_t) : problem_t :=
  foldl (constrain_block ndp constant_intrinsics) p
        (seq 0 (length camera_intr_params)).

(** ** Writing the landmarks back (lines 305-313) *)

(** The body of the loop. [lms[lmp.first]] followed by [*lmi]: on a key that
    [lms] does not have, the subscript inserts a null pointer and the
    dereference is undefined ([None]); so is the read of the three doubles at
    [&lmp.second[0]] when the vector is shorter. *)
Definition update_landmark (t : Z) (p : list double)
    (acc : option (gmap Z landmark)) : option (gmap Z landmark) :=
  lms ← acc;
  lmi ← lms !! t;
  l ← map_vector_3d p;
  Some (<[t := set_loc l (landmark_d_copy lmi)]> lms).

Definition update_landmarks (landmark_params : gmap Z (list double))
    (lms : gmap Z landmark) : option (gmap Z landmark) :=
  map_fold update_landmark (Some lms) landmark_params.

(** ** optimize *)

Definition newline : string := String (Ascii.ascii_of_nat 10) EmptyString.

Inductive outcome :=
| Returned      (* the call returned *)
| Threw         (* the camera extraction reported a configuration error *)
| Undefined.    (* an unchecked access went out of range *)

Record optimize_result := OptimizeResult {
  out_cameras : camera_map_sptr;       (* [cameras] after the call *)
  out_landmarks : landmark_map_sptr;   (* [landmarks] after the call *)
  status : outcome;
  trace : list event;
  built_problem : option problem_t;    (* the problem handed to the solver *)
  solved_params : option param_store;  (* the containers after the solver ran *)
}.

(** Lines 294-299: [if(loss_func && !loss_func_used) delete loss_func;] *)
Definition delete_unused_loss (loss_func : option LossFunction)
    (loss_func_used : bool) : list event :=
  match loss_func with
  | Some l => if negb loss_func_used then [EvDeleteLoss l] else []
  | None => []
  end.

Definition optimize (d : priv) (cameras : camera_map_sptr)
    (landmarks : landmark_map_sptr) (tracks : track_set_sptr) : optimize_result :=
  match cameras, landmarks, tracks with
  | Some cams, Some lms, Some trks =>
      let lm_params := extract_landmark_params lms in
      match extract_camera_parameters (cam_opts d) cams with
      | None => OptimizeResult cameras landmarks Threw [] None None
      | Some e =>
          let s := ParamStore lm_params (ext_params e) (int_params e) in
          let constant_intrinsics := enumerate_constant_intrinsics (cam_opts d) in
          let loss_func :=
            LossFunctionFactory (loss_function_type d) (loss_function_scale d) in
          let created := [EvProblem; EvLossFunctionFactory loss_func] in
          match add_residuals d s loss_func
                  (BuildState empty_problem (int_map e) false) trks with
          | None => OptimizeResult cameras landmarks Undefined created None None
          | Some st =>
              let ndp := num_distortion_params (lens_distortion_type (cam_opts d)) in
              let problem :=
                apply_constraints ndp constant_intrinsics (camera_intr_params s)
                                  (bs_problem st) in
              let deleted := delete_unused_loss loss_func (bs_loss_func_used st) in
              let '(s', report) := run_solver (options d) problem s in
              let solved :=
                created ++ deleted ++
                [EvSolve (options d) problem;
                 EvLog DEBUG ("Ceres Full Report:" ++ newline ++ report)] in
              match update_landmarks (landmark_params s') lms with
              | None =>
                  OptimizeResult cameras landmarks Undefined solved
                                 (Some problem) (Some s')
              | Some lms' =>
                  OptimizeResult
                    (Some (update_camera_parameters (camera_params s')
                             (camera_intr_params s') (bs_frame_to_intr_map st)))
                    (Some lms')
                    Returned
                    (solved ++ [EvProblemDestroyed problem])
                    (Some problem) (Some s')
              end
          end
      end
  | _, _, _ =>
      (* TODO throw an exception for missing input data *)
      OptimizeResult cameras landmarks Returned [] None None
  end.

(** ** Reading a trace *)

Definition is_solve (e : event) : bool :=
  match e with EvSolve _ _ => true | _ => false end.
Definition is_is_valid (e : event) : bool :=
  match e with EvIsValid _ => true | _ => false end.
Definition is_problem (e : event) : bool :=
  match e with EvProblem => true | _ => false end.
Definition is_error_log (e : event) : bool :=
  match e with EvLog ERROR _ => true | _ => false end.
Definition is_loss_created (e : event) : bool :=
  match e with EvLossFunctionFactory (Some _) => true | _ => false end.
Definition is_loss_deleted (e : event) : bool :=
  match e with EvDeleteLoss _ => true | _ => false end.

Definition count_events (P : event → bool) (tr : list event) : nat :=
  length (filter (λ e, P e = true) tr).

(** The solver ran. *)
Definition solver_invoked (r : optimize_result) : Prop :=
  ∃ e, e ∈ trace r ∧ is_solve e = true.

(** The call reported an error: it threw or it logged at error severity. *)
Definition error_reported (r : optimize_result) : Prop :=
  status r = Threw ∨ ∃ e, e ∈ trace r ∧ is_error_log e = true.

(** Every solver invocation of the trace comes after a validity check. *)
Definition solve_after_check (tr : list event) : Prop :=
  ∀ pre e post, tr = pre ++ e :: post → is_solve e = true →
    ∃ c, c ∈ pre ∧ is_is_valid c = true.

(** A problem that took a loss function with one of its residual blocks owns
    it (Problem::Options::loss_function_ownership is TAKE_OWNERSHIP for the
    default-constructed problem) and frees it, once, when it is destroyed. *)
Definition problem_owns_loss (p : problem_t) : bool :=
  existsb (λ r, bool_decide (is_Some (rb_loss r))) (residual_blocks p).

Definition freed_by_problem (e : event) : bool :=
  match e with EvProblemDestroyed p => problem_owns_loss p | _ => false end.

(** How many loss-function instances a call created, and how many times one
    was freed (by [delete] or by the problem that owned it). *)
Definition loss_created (tr : list event) : nat := count_events is_loss_created tr.
Definition loss_freed (tr : list event) : nat :=
  (count_events is_loss_deleted tr + count_events freed_by_problem tr)%nat.

Definition nonempty {A} (l : list A) : bool :=
  match l with [] => false | _ => true end.

(** The state of the residual loop after the residual blocks [R] were added. *)
Definition with_residuals (st : build_state)
    (R : list (residual_block CostFunction LossFunction)) : build_state :=
  BuildState
    (MkProblem (residual_blocks (bs_problem st) ++ R)
               (constant_blocks (bs_problem st))
               (parameterizations (bs_problem st)))
    (bs_frame_to_intr_map st)
    (bs_loss_func_used st || nonempty R).

Definition is_factory_call (e : event) : bool :=
  match e with EvLossFunctionFactory _ => true | _ => false end.

(** The call got as far as constructing the problem. *)
Definition problem_constructed (r : optimize_result) : Prop :=
  ∃ e, e ∈ trace r ∧ is_problem e = true.

(** A collection handle that is null, or a collection without entries. *)
Definition camera_collection_missing (c : camera_map_sptr) : Prop :=
  match c with None => True | Some cm => cameras_of cm = ∅ end.
Definition landmark_collection_missing (l : landmark_map_sptr) : Prop :=
  match l with None => True | Some m => m = ∅ end.

(** The call stopped with a reported error before it constructed the problem
    and left both handles as they were. *)
Definition aborted_with_error (cameras : camera_map_sptr)
    (landmarks : landmark_map_sptr) (r : optimize_result) : Prop :=
  error_reported r ∧ ¬ problem_constructed r ∧
  out_cameras r = cameras ∧ out_landmarks r = landmarks.

(** The call checked the solver options before every solver invocation and,
    when they are invalid, failed without solving. *)
Definition checked_before_solve (d : priv) (r : optimize_result) : Prop :=
  solve_after_check (trace r) ∧
  ((IsValid (options d)).1 = false → error_reported r ∧ ¬ solver_invoked r).

(** The IDs of a collection. *)
Definition frame_ids (c : camera_map_sptr) : option (gset Z) :=
  (λ cm, dom (cameras_of cm)) <$> c.
Definition track_ids (l : landmark_map_sptr) : option (gset Z) :=
  dom <$> l.

(** The parameter containers [optimize] starts from. *)
Definition initial_params (lms : gmap Z landmark) (e : extraction) : param_store :=
  ParamStore (extract_landmark_params lms) (ext_params e) (int_params e).

(** ** Properties the statements below are about *)

(** Every frame with an extrinsics vector has an intrinsics index, and the
    index is a position of the list of intrinsics vectors. *)
Definition index_in_range (s : param_store) (fmap : gmap Z nat) : Prop :=
  ∀ f, is_Some (camera_params s !! f) →
    ∃ i, fmap !! f = Some i ∧ (i < length (camera_intr_params s))%nat.

(** What the extraction yields for a camera collection. *)
Record extraction_ok (ndp : N) (cams : camera_map) (e : extraction) : Prop := {
  ok_ext : ext_params e = cam_extrinsics <$> cameras_of cams;
  ok_dom : dom (int_map e) = dom (cameras_of cams);
  ok_idx : ∀ f i, int_map e !! f = Some i → (i < length (int_params e))%nat;
  ok_seen : ∀ ptr i, seen_intrinsics e !! ptr = Some i →
      ∃ K, intrinsics_of cams !! ptr = Some K ∧
           int_params e !! i = Some (flatten_intrinsics ndp K);
  ok_val : ∀ f c i, cameras_of cams !! f = Some c → int_map e !! f = Some i →
      ∃ K, camera_intrinsics_values cams c = Some K ∧
           int_params e !! i = Some (flatten_intrinsics ndp K);
}.

(** The residual block of one observation, when it is to be added: the track's
    landmark and the observation's frame both have parameters. *)
Definition observation_residuals (d : priv) (s : param_store)
    (loss_func : option LossFunction) (fmap : gmap Z nat) (t_id : Z)
    (ts : track_state) : list (residual_block CostFunction LossFunction) :=
  if decide (is_Some (landmark_params s !! t_id) ∧
             is_Some (camera_params s !! frame_id ts))
  then [ResidualBlock
          (create_cost_func (lens_distortion_type (cam_opts d))
                            (v2x (feat_loc ts)) (v2y (feat_loc ts)))
          loss_func
          [IntrBlock (default 0%nat (fmap !! frame_id ts));
           CamBlock (frame_id ts); LmBlock t_id]]
  else [].

(** For every track, for every observation of its history. *)
Definition wanted_residuals (d : priv) (s : param_store)
    (loss_func : option LossFunction) (fmap : gmap Z nat) (trks : list track)
    : list (residual_block CostFunction LossFunction) :=
  t ← trks; ts ← history t; observation_residuals d s loss_func fmap (id t) ts.

(** The landmark collection with the position of every landmark that has a
    parameter vector (of three values at least) replaced by that vector. *)
Definition updated_landmarks (lm_params : gmap Z (list double))
    (lms : gmap Z landmark) : gmap Z landmark :=
  map_imap (λ t lm, Some match lm_params !! t ≫= map_vector_3d with
                         | Some l => set_loc l (landmark_d_copy lm)
                         | None => lm
                         end) lms.

(** Every parameter vector has the three values a position is read from. *)
Definition three_values (lm_params : gmap Z (list double)) : Prop :=
  ∀ t p, lm_params !! t = Some p → (3 ≤ length p)%nat.

(** The statement about missing input, for one call. *)
Definition missing_input_claim (d : priv) (cameras : camera_map_sptr)
    (landmarks : landmark_map_sptr) (tracks : track_set_sptr) : Prop :=
  camera_collection_missing cameras ∨ landmark_collection_missing landmarks →
  aborted_with_error cameras landmarks (optimize d cameras landmarks tracks).

(** The statement about the loss function, for one call: one instance is
    created, it is freed once, and it is the problem that owns it as soon as a
    residual block was added, and optimize that deletes it otherwise. *)
Definition one_loss_instance_claim (r : optimize_result) : Prop :=
  loss_created (trace r) = 1%nat ∧ loss_freed (trace r) = 1%nat ∧
  ∀ p, built_problem r = Some p →
    if nonempty (residual_blocks p)
    then problem_owns_loss p = true ∧
         count_events is_loss_deleted (trace r) = 0%nat
    else count_events is_loss_deleted (trace r) = 1%nat.

(** The statement about untouched entities, for one call.  A camera is
    untouched when no residual block refers to its extrinsics or to its
    intrinsics group; it is unchanged when the output collection has, for its
    frame, a camera with the same extrinsics and the same intrinsics values.
    A landmark is untouched when no residual block refers to its position. *)
Definition camera_untouched (e : extraction) (p : problem_t) (f : Z) : Prop :=
  CamBlock f ∉ problem_blocks p ∧
  ∀ i, int_map e !! f = Some i → IntrBlock i ∉ problem_blocks p.

Definition camera_unchanged (cm : camera_map) (c : camera)
    (cm' : camera_map) (c' : camera) : Prop :=
  cam_extrinsics c' = cam_extrinsics c ∧
  camera_intrinsics_values cm' c' = camera_intrinsics_values cm c.

Definition untouched_unchanged_claim (d : priv) (cams : camera_map)
    (lms : gmap Z landmark) (trks : list track) : Prop :=
  let r := optimize d (Some cams) (Some lms) (Some trks) in
  ∀ e p out_c out_l,
    extract_camera_parameters (cam_opts d) cams = Some e →
    built_problem r = Some p →
    out_cameras r = Some out_c → out_landmarks r = Some out_l →
    (∀ t lm, lms !! t = Some lm → LmBlock t ∉ problem_blocks p →
       out_l !! t = Some lm) ∧
    (∀ f c, cameras_of cams !! f = Some c → camera_untouched e p f →
       ∃ c', cameras_of out_c !! f = Some c' ∧ camera_unchanged cams c out_c c').

(** ** The residual loop without assumptions on the maps *)

(** The observations of a track list, each with the ID of its track, in the
    order the two nested loops visit them. *)
Definition observations (trks : list track) : list (Z * track_state) :=
  t ← trks; ts ← history t; [(id t, ts)].

(** The two loop bodies as one step on an observation: the outer loop skips
    the track, and so each of its observations, when the landmark is not in
    the map. *)
Definition add_flat (d : priv) (s : param_store) (loss_func : option LossFunction)
    (st : build_state) (o : Z * track_state) : option build_state :=
  match landmark_params s !! o.1 with
  | None => Some st
  | Some _ => add_observation d s loss_func o.1 st o.2
  end.

(** An observation gets a residual block: its landmark and its frame both
    have parameters. *)
Definition observed (s : param_store) (o : Z * track_state) : Prop :=
  is_Some (landmark_params s !! o.1) ∧ is_Some (camera_params s !! frame_id o.2).

(** What [operator[]] may do to frame_to_intr_map: every entry stays, or a
    zero is added for a frame that has extrinsics. *)
Definition map_grows (s : param_store) (m m' : gmap Z nat) : Prop :=
  ∀ f, m' !! f = m !! f ∨
       (m !! f = None ∧ m' !! f = Some 0%nat ∧ is_Some (camera_params s !! f)).

Definition with_map (st : build_state) (m : gmap Z nat) : build_state :=
  BuildState (bs_problem st) m (bs_loss_func_used st).

End Model.

(** ** A small environment to run the model on *)

Module Example.

(** Options are valid when the iteration bound is not negative. *)
Record options_t := { max_num_iterations : Z }.
Inductive loss_t := TRIVIAL_LOSS | HUBER_LOSS | CAUCHY_LOSS.
Record camera_options_t := { distortion_coefficients : N; constant : list Z }.

(** A solver that moves every value it is given to one. *)
#[export] Instance env : CeresEnv := {|
  SolverOptions := options_t;
  IsValid o := if decide (0 ≤ max_num_iterations o) then (true, "")
               else (false, "max_num_iterations incorrectly set");
  LossFunction := loss_t * double;
  CostFunction := N * vector_2d;
  LossFunctionType := loss_t;
  LossFunctionFactory t s :=
    match t with TRIVIAL_LOSS => None | _ => Some (t, s) end;
  LensDistortionType := N;
  num_distortion_params n := n;
  create_cost_func n x y := (n, Vec2 x y);
  camera_options := camera_options_t;
  lens_distortion_type := distortion_coefficients;
  enumerate_constant_intrinsics := constant;
  Solve o p cur := (λ b, (λ _, 1%float) <$> cur b, "done");
|}.

Definition valid_options : options_t := {| max_num_iterations := 50 |}.
Definition invalid_options : options_t := {| max_num_iterations := -1 |}.

Definition algo (o : options_t) (t : loss_t) (constant : list Z) : priv :=
  Priv o {| distortion_coefficients := 0; constant := constant |} false t 1%float.

(** Frames 1 and 2 share the intrinsics instance at address 1; frame 3 has its
    own. *)
Definition cams : camera_map :=
  CameraMap
    (<[1 := Camera (replicate 6 0.5%float) (Some 1%nat)]>
     (<[2 := Camera (replicate 6 0.25%float) (Some 1%nat)]>
      (<[3 := Camera (replicate 6 2%float) (Some 2%nat)]> ∅)))
    (<[1%nat := replicate 5 3%float]>
     (<[2%nat := replicate 5 4%float]> ∅)).

(** Landmark 7 is observed, landmark 8 is not. *)
Definition lms : gmap Z landmark :=
  <[7 := Landmark (Vec3 1 2 3) (Some (Rgb 255 0 0)) None]>
  (<[8 := Landmark (Vec3 4 5 6) None (Some [1%float])]> ∅).

(** Track 7 is seen in frames 1 and 2 and in a frame 9 that has no camera;
    track 5 has no landmark. *)
Definition trks : list track :=
  [Track 7 [TrackState 1 (Vec2 10 20); TrackState 9 (Vec2 0 0);
            TrackState 2 (Vec2 30 40)];
   Track 5 [TrackState 1 (Vec2 7 7)]].

Definition empty_cams : camera_map := CameraMap ∅ ∅.

(** An algorithm object with valid options and one with invalid options. *)
Definition huber : priv := algo valid_options HUBER_LOSS [].
Definition unchecked : priv := algo invalid_options HUBER_LOSS [].

(** What the camera extraction gives for [cams]. *)
Definition extracted : extraction :=
  default (Extraction ∅ [] ∅ ∅) (extract_camera_parameters (cam_opts huber) cams).

(** The residual loop started from an empty frame_to_intr_map, and the state
    it ends in. *)
Definition bare_state : build_state := BuildState empty_problem ∅ false.
Definition miswired : build_state :=
  default bare_state
    (add_residuals huber (initial_params lms extracted)
                   (Some (HUBER_LOSS, 1%float)) bare_state trks).

(** Tracks of which no observation has both a landmark and a camera. *)
Definition stray_trks : list track :=
  [Track 5 [TrackState 1 (Vec2 7 7)]; Track 7 [TrackState 9 (Vec2 0 0)]].

(** The cameras of [cams], with two distortion coefficients in the intrinsics
    of frame 3, which no track observes; the distortion model of [huber] has
    none. *)
Definition wide_cams : camera_map :=
  CameraMap (cameras_of cams)
            (<[2%nat := replicate 5 4%float ++ [9; 9]%float]> (intrinsics_of cams)).
Definition wide_extracted : extraction :=
  default (Extraction ∅ [] ∅ ∅) (extract_camera_parameters (cam_opts huber) wide_cams).
Definition wide_problem : @Problem (N * vector_2d) (loss_t * double) :=
  default empty_problem
    (built_problem (optimize huber (Some wide_cams) (Some lms) (Some trks))).
Definition wide_out_cameras : camera_map :=
  default empty_cams
    (out_cameras (optimize huber (Some wide_cams) (Some lms) (Some trks))).
Definition wide_out_landmarks : gmap Z landmark :=
  default ∅ (out_landmarks (optimize huber (Some wide_cams) (Some lms) (Some trks))).

End Example.

(** * The plugin explorer (vital/tools/plugin_explorer.cxx)

    The tool prints what the plugin manager has registered.  A [std::string]
    is a [string]; what is written to [std::cout] and [std::cerr] is returned
    as two strings with the exit status.  The plugin manager, the plugin
    factories, [demangle] and kwiversys' regular expressions and command-line
    parser are outside the verified sources: [main] is given the options as
    the parser left them, and the rest is gathered in the class
    [ExplorerEnv]. *)

Module PluginExplorer.

Definition dquote : string := String (Ascii.ascii_of_nat 34) EmptyString.
Definition endl : string := String (Ascii.ascii_of_nat 10) EmptyString.
Definition EOT : Ascii.ascii := Ascii.ascii_of_nat 4.   (* '\004' *)

(** ** std::string *)

(** [s.find(c)]: the position of the first [c]; [None] is [npos]. *)
Fixpoint find (c : Ascii.ascii) (s : string) : option nat :=
  match s with
  | EmptyString => None
  | String a s' => if decide (a = c) then Some 0%nat else S <$> find c s'
  end.

Fixpoint take (n : nat) (s : string) : string :=
  match n, s with
  | S n', String a s' => String a (take n' s')
  | _, _ => EmptyString
  end.

Fixpoint drop (n : nat) (s : string) : string :=
  match n, s with
  | S n', String _ s' => drop n' s'
  | _, _ => s
  end.

(** [s.replace(pos, len, str)], for [pos] within the string. *)
Definition replace (pos len : nat) (str s : string) : string :=
  take pos s +:+ str +:+ drop (pos + len) s.

(** ** join (lines 104-112) *)

(** [std::copy] into an [ostream_iterator] with the delimiter: every element
    is written and followed by the delimiter. *)
Definition join (vec : list string) (delim : string) : string :=
  foldl (λ res s, res +:+ s +:+ delim) EmptyString vec.

(** ** What the tool uses of the plugin loader and of kwiversys *)

Class ExplorerEnv := {
  (* plugin_factory: the names of the canonical attributes *)
  PLUGIN_NAME : string;
  CONCRETE_TYPE : string;
  INTERFACE_TYPE : string;
  PLUGIN_DESCRIPTION : string;
  PLUGIN_FILE_NAME : string;
  PLUGIN_VERSION : string;
  PLUGIN_MODULE_NAME : string;
  (* plugin_factory_handle_t; get_attribute(attr, buf): whether the attribute
     was found, and buf after the call; for_each_attr(f): the attributes f is
     called on, in order *)
  plugin_factory : Type;
  get_attribute : plugin_factory → string → string → bool * string;
  for_each_attr : plugin_factory → list (string * string);
  demangle : string → string;
  (* kwiversys::RegularExpression: compile (None when it fails) and find *)
  RegularExpression : Type;
  regex_compile : string → option RegularExpression;
  regex_find : RegularExpression → string → bool;
  (* plugin_manager *)
  plugin_manager : Type;
  add_search_path : string → plugin_manager → plugin_manager;
  search_path : plugin_manager → list string;
  module_map : plugin_manager → list (string * string);
  plugin_map : plugin_manager → list (string * list plugin_factory);
  file_list : plugin_manager → list string;
}.

Section Tool.
Context `{ExplorerEnv}.

(** ** print_functor (lines 66-101) *)

(** The attribute is one of those displayed elsewhere. *)
Definition canonical (key : string) : Prop :=
  ¬ (PLUGIN_NAME ≠ key ∧ CONCRETE_TYPE ≠ key ∧ INTERFACE_TYPE ≠ key ∧
     PLUGIN_DESCRIPTION ≠ key ∧ PLUGIN_FILE_NAME ≠ key ∧
     PLUGIN_VERSION ≠ key ∧ PLUGIN_MODULE_NAME ≠ key).

(** [print_functor::operator()]: what it writes to its stream. *)
Definition print_functor (key val : string) : string :=
  if decide (PLUGIN_NAME ≠ key ∧ CONCRETE_TYPE ≠ key ∧ INTERFACE_TYPE ≠ key ∧
             PLUGIN_DESCRIPTION ≠ key ∧ PLUGIN_FILE_NAME ≠ key ∧
             PLUGIN_VERSION ≠ key ∧ PLUGIN_MODULE_NAME ≠ key)
  then
    let value :=
      match find EOT val with
      | Some pos => replace pos 1 (dquote +:+ "  ::  " +:+ dquote) val
      | None => val
      end in
    "    * " +:+ key +:+ ": " +:+ dquote +:+ value +:+ dquote +:+ endl
  else EmptyString.

(** ** print_help (lines 115-136) *)

Definition print_help : string :=
  "This program loads vital plugins and displays their data." +:+ endl +:+
  "Additional paths can be specified in " +:+ dquote +:+ "KWIVER_PLUGIN_PATH" +:+
    dquote +:+ " environment variable" +:+ endl +:+
  endl +:+
  "Options are:" +:+ endl +:+
  "  --help           displays usage information" +:+ endl +:+
  "  --path           display plugin search path" +:+ endl +:+
  "  -Iname           also load plugins from this directory (can appear multiple times)" +:+ endl +:+
  "  --detail  -d     generate detailed listing" +:+ endl +:+
  "  --fact  regex    display factories that match regexp" +:+ endl +:+
  "  --brief          display factory name and description only" +:+ endl +:+
  "  --mod            display list of loaded modules" +:+ endl +:+
  "  --files          display list of files successfully opened to load plugins" +:+ endl.

(** ** The options (lines 47-63, 266-287) *)

(** The global options and the local [plugin_name], as [arg.Parse()] leaves
    them. *)
Record explorer_options := ExplorerOptions {
  opt_config : bool;
  opt_detail : bool;
  opt_help : bool;
  opt_path_list : bool;
  opt_brief : bool;
  opt_modules : bool;
  opt_files : bool;
  opt_hidden : bool;
  opt_path : list string;
  opt_fact_regex : string;
  plugin_name : string;
}.

(** [path_callback]: the value of a [-I] argument is appended to [opt_path];
    the callback reports success. *)
Definition path_callback (value : string) (o : explorer_options)
    : Z * explorer_options :=
  (1, ExplorerOptions (opt_config o) (opt_detail o) (opt_help o) (opt_path_list o)
        (opt_brief o) (opt_modules o) (opt_files o) (opt_hidden o)
        (opt_path o ++ [value]) (opt_fact_regex o) (plugin_name o)).

(** ** main (lines 266-460) *)

Record run := Run { stdout : string; stderr : string; exit_status : Z }.

Definition concat_strings (l : list string) : string :=
  foldr String.append EmptyString l.

(** The body of the loop over the factories of one type (lines 370-442). *)
Definition display_factory (o : explorer_options) (fact : plugin_factory) : string :=
  let buf := (get_attribute fact PLUGIN_NAME "-- Not Set --").2 in
  let version := (get_attribute fact PLUGIN_VERSION "").2 in
  let name_line :=
    "  Plugin name: " +:+ buf +:+
    (if negb (bool_decide (version = ""))
     then "      Version: " +:+ version +:+ endl else "") in
  let buf := (get_attribute fact PLUGIN_DESCRIPTION "-- Not Set --").2 in
  let description := "      Description: " +:+ buf +:+ endl in
  if opt_brief o then name_line +:+ description
  else
    let concrete :=
      if opt_detail o
      then
        let '(found, buf) := get_attribute fact CONCRETE_TYPE "-- Not Set --" in
        let buf := if found then demangle buf else buf in
        "      Creates concrete type: " +:+ buf +:+ endl
      else "" in
    let rest :=
      if opt_detail o
      then
        let buf := (get_attribute fact PLUGIN_FILE_NAME "-- Not Set --").2 in
        "      Plugin loaded from file: " +:+ buf +:+ endl +:+
        concat_strings ((λ kv, print_functor kv.1 kv.2) <$> for_each_attr fact)
      else "" in
    name_line +:+ description +:+ concrete +:+ rest.

(** The body of the loop over the interface types (lines 355-443);
    [fact_regex] is the compiled expression when [opt_fact_filt] is set. *)
Definition display_type (o : explorer_options) (fact_regex : option RegularExpression)
    (it : string * list plugin_factory) : string :=
  let ds := demangle it.1 in
  if match fact_regex with Some r => negb (regex_find r ds) | None => false end
  then ""
  else
    String (Ascii.ascii_of_nat 10) "Factories that create type " +:+ dquote +:+ ds +:+
      dquote +:+ endl +:+
    concat_strings (display_factory o <$> it.2).

(** Lines 318-459: what [main] prints once the options are accepted. *)
Definition listing (o : explorer_options) (fact_regex : option RegularExpression)
    (vpm0 : plugin_manager) : string :=
  let vpm := foldl (λ v path, add_search_path path v) vpm0 (opt_path o) in
  let paths :=
    if opt_path_list o
    then "---- Plugin search path" +:+ endl +:+
         concat_strings ((λ dir, "    " +:+ dir +:+ endl) <$> search_path vpm) +:+
         endl
    else "" in
  let modules :=
    if opt_modules o
    then "---- Registered module names:" +:+ endl +:+
         concat_strings
           ((λ name : string * string,
               "   " +:+ name.1 +:+ "  loaded from: " +:+ name.2 +:+ endl)
              <$> module_map vpm) +:+
         endl
    else "" in
  let factories :=
    String (Ascii.ascii_of_nat 10) "---- Registered Factories" +:+ endl +:+
    concat_strings (display_type o fact_regex <$> plugin_map vpm) in
  let files :=
    if opt_files o
    then String (Ascii.ascii_of_nat 10) "---- Files Successfully Opened" +:+ endl +:+
         concat_strings ((λ name, "  " +:+ name +:+ endl) <$> file_list vpm)
    else "" in
  paths +:+ modules +:+ factories +:+ files.

(** [main], from the point where the arguments were parsed ([None]: the parser
    reported a problem). *)
Definition main (parsed : option explorer_options) (vpm0 : plugin_manager) : run :=
  match parsed with
  | None => Run "" ("Problem parsing arguments" +:+ endl) 0
  | Some o =>
      if opt_help o then Run print_help "" 0
      else if negb (bool_decide (opt_fact_regex o = ""))
      then
        match regex_compile (opt_fact_regex o) with
        | None =>
            Run "" ("Invalid regular expression " +:+ dquote +:+ opt_fact_regex o +:+
                    dquote +:+ endl) 1
        | Some r => Run (listing o (Some r) vpm0) "" 0
        end
      else Run (listing o None vpm0) "" 0
  end.

End Tool.

(** ** A small plugin registry to run the tool on *)

Module Demo.

Record registry := Registry {
  reg_paths : list string;
  reg_modules : list (string * string);
  reg_plugins : list (string * list (list (string * string)));
  reg_files : list string;
}.

Fixpoint assoc (key : string) (attrs : list (string * string)) : option string :=
  match attrs with
  | [] => None
  | (k, v) :: attrs => if decide (k = key) then Some v else assoc key attrs
  end.

(** A factory is its list of attributes; an expression is a prefix to look
    for, and "(" does not compile. *)
#[export] Instance env : ExplorerEnv := {|
  PLUGIN_NAME := "plugin-name";
  CONCRETE_TYPE := "concrete-type";
  INTERFACE_TYPE := "interface-type";
  PLUGIN_DESCRIPTION := "plugin-descrip";
  PLUGIN_FILE_NAME := "plugin-file-name";
  PLUGIN_VERSION := "plugin-version";
  PLUGIN_MODULE_NAME := "plugin-module-name";
  plugin_factory := list (string * string);
  get_attribute fact attr buf :=
    match assoc attr fact with Some v => (true, v) | None => (false, buf) end;
  for_each_attr fact := fact;
  demangle s := s;
  RegularExpression := string;
  regex_compile re := if decide (re = "(") then None else Some re;
  regex_find r s := String.prefix r s;
  plugin_manager := registry;
  add_search_path path v :=
    Registry (reg_paths v ++ [path]) (reg_modules v) (reg_plugins v) (reg_files v);
  search_path := reg_paths;
  module_map := reg_modules;
  plugin_map := reg_plugins;
  file_list := reg_files;
|}.

Definition vpm : registry :=
  Registry ["/usr/lib/modules"] [("core", "/usr/lib/modules/core.so")]
    [("algo", [[("plugin-name", "ceres"); ("plugin-descrip", "bundle adjustment");
                ("note", "a" +:+ String EOT "b")]]);
     ("process", [[("plugin-name", "reader")]])]
    ["/usr/lib/modules/core.so"].

Definition brief_options : explorer_options :=
  ExplorerOptions false false false false true false false false [] "" "".

Definition detail_options : explorer_options :=
  ExplorerOptions false true false true false true true false ["/opt/plugins"] "al" "".

End Demo.

End PluginExplorer.

(** * Properties *)

Section Facts.
Context `{CeresEnv}.

(** ** Camera extraction *)

Lemma extract_camera_ok ndp heap m f c e e' :
  m !! f = None →
  extraction_ok ndp (CameraMap m heap) e →
  extract_camera ndp heap f c (Some e) = Some e' →
  extraction_ok ndp (CameraMap (<[f := c]> m) heap) e'.
Proof.
  intros Hf [Hext Hdom Hidx Hseen Hval] Hstep.
  unfold extract_camera in Hstep. simpl in *.
  destruct (cam_intrinsics c) as [ptr|] eqn:Hptr; [|done]. simpl in Hstep.
  destruct (heap !! ptr) as [K|] eqn:HK; [|done]. simpl in Hstep.
  assert (Hfi : int_map e !! f = None).
  { apply not_elem_of_dom. rewrite Hdom. by apply not_elem_of_dom. }
  destruct (seen_intrinsics e !! ptr) as [i|] eqn:Hs;
    inversion Hstep; subst e'; clear Hstep; split; simpl.
  - by rewrite Hext, fmap_insert.
  - by rewrite !dom_insert_L, Hdom.
  - intros g j. rewrite lookup_insert. case_decide; [|by apply Hidx].
    intros [= <-]. destruct (Hseen _ _ Hs) as (K' & _ & Hi).
    by apply lookup_lt_Some in Hi.
  - done.
  - intros g c' j. destruct (decide (f = g)) as [<-|Hg].
    + rewrite !lookup_insert_eq. intros [= <-] [= <-].
      destruct (Hseen _ _ Hs) as (K' & HK' & Hi).
      exists K'. split; [|done].
      unfold camera_intrinsics_values. simpl. by rewrite Hptr.
    + rewrite !lookup_insert_ne by done. by apply Hval.
  - by rewrite Hext, fmap_insert.
  - by rewrite !dom_insert_L, Hdom.
  - intros g j. rewrite lookup_insert, length_app. simpl. case_decide.
    + intros [= <-]. lia.
    + intros Hj. apply Hidx in Hj. lia.
  - intros q j. rewrite lookup_insert. case_decide as Hq.
    + intros [= <-]. subst q. exists K. split; [done|].
      by rewrite lookup_app_r, Nat.sub_diag.
    + intros Hj. destruct (Hseen _ _ Hj) as (K' & HK' & Hi).
      exists K'. split; [done|]. by apply lookup_app_l_Some.
  - intros g c' j. destruct (decide (f = g)) as [<-|Hg].
    + rewrite !lookup_insert_eq. intros [= <-] [= <-]. exists K. split.
      * unfold camera_intrinsics_values. simpl. by rewrite Hptr.
      * by rewrite lookup_app_r, Nat.sub_diag.
    + rewrite !lookup_insert_ne by done. intros Hc Hj.
      destruct (Hval _ _ _ Hc Hj) as (K' & HK' & Hi).
      exists K'. split; [done|]. by apply lookup_app_l_Some.
Qed.

Lemma extract_camera_parameters_ok co cams e :
  extract_camera_parameters co cams = Some e →
  extraction_ok (num_distortion_params (lens_distortion_type co)) cams e.
Proof.
  destruct cams as [m heap]. unfold extract_camera_parameters. simpl.
  set (ndp := num_distortion_params _). revert e.
  apply (map_fold_weak_ind
           (λ r m, ∀ e, r = Some e → extraction_ok ndp (CameraMap m heap) e)).
  - intros e [= <-]. split; simpl; rewrite ?fmap_empty, ?dom_empty_L; done.
  - intros f c m' r Hf IH e Hstep. destruct r as [e0|]; [|done].
    eapply extract_camera_ok; eauto.
Qed.

(** ** The residual loop *)

Lemma with_residuals_nil st : with_residuals st [] = st.
Proof.
  destruct st as [[rs cs ps] m u]. unfold with_residuals. simpl.
  by rewrite app_nil_r, orb_false_r.
Qed.

Lemma with_residuals_app st R1 R2 :
  with_residuals (with_residuals st R1) R2 = with_residuals st (R1 ++ R2).
Proof.
  unfold with_residuals. simpl. rewrite <- app_assoc, <- orb_assoc.
  do 2 f_equal. by destruct R1, R2.
Qed.

Lemma map_subscript_present (m : gmap Z nat) k i :
  m !! k = Some i → map_subscript m k = (i, m).
Proof. intros Hk. unfold map_subscript. by rewrite Hk. Qed.

Lemma add_observation_spec d s loss t_id st ts :
  index_in_range s (bs_frame_to_intr_map st) →
  is_Some (landmark_params s !! t_id) →
  add_observation d s loss t_id st ts =
    Some (with_residuals st
            (observation_residuals d s loss (bs_frame_to_intr_map st) t_id ts)).
Proof.
  intros Hidx Hlm. unfold add_observation, observation_residuals.
  destruct (camera_params s !! frame_id ts) as [ext|] eqn:Hcam.
  - destruct (Hidx (frame_id ts)) as (i & Hi & Hlt); [by rewrite Hcam|].
    rewrite (map_subscript_present _ _ _ Hi), Hi. simpl.
    destruct (lookup_lt_is_Some_2 _ _ Hlt) as [K HK]. rewrite HK.
    rewrite decide_True by (split; [done | by eexists]).
    unfold with_residuals, AddResidualBlock. simpl. by rewrite orb_true_r.
  - rewrite decide_False by (intros [_ [? ?]]; done).
    by rewrite with_residuals_nil.
Qed.

Lemma add_observations_spec d s loss t_id obs : ∀ st,
  index_in_range s (bs_frame_to_intr_map st) →
  is_Some (landmark_params s !! t_id) →
  foldl_opt (add_observation d s loss t_id) st obs =
    Some (with_residuals st
            (ts ← obs; observation_residuals d s loss (bs_frame_to_intr_map st) t_id ts)).
Proof.
  induction obs as [|ts obs IH]; intros st Hidx Hlm; simpl.
  - by rewrite with_residuals_nil.
  - rewrite add_observation_spec by done. simpl.
    rewrite IH by done. simpl. by rewrite with_residuals_app.
Qed.

Lemma add_track_spec d s loss st t :
  index_in_range s (bs_frame_to_intr_map st) →
  add_track d s loss st t =
    Some (with_residuals st
            (ts ← history t;
             observation_residuals d s loss (bs_frame_to_intr_map st) (id t) ts)).
Proof.
  intros Hidx. unfold add_track.
  destruct (landmark_params s !! id t) as [p|] eqn:Hlm.
  - apply add_observations_spec; [done | by rewrite Hlm].
  - assert (Hnone : ∀ obs : list track_state,
      (ts ← obs; observation_residuals d s loss (bs_frame_to_intr_map st) (id t) ts) = []).
    { induction obs as [|ts obs IH]; [done|]. rewrite bind_cons, IH.
      unfold observation_residuals.
      rewrite decide_False; [done|]. rewrite Hlm. by intros [[? ?] _]. }
    by rewrite Hnone, with_residuals_nil.
Qed.

Lemma add_residuals_spec d s loss trks : ∀ st,
  index_in_range s (bs_frame_to_intr_map st) →
  add_residuals d s loss st trks =
    Some (with_residuals st
            (wanted_residuals d s loss (bs_frame_to_intr_map st) trks)).
Proof.
  unfold add_residuals, wanted_residuals.
  induction trks as [|t trks IH]; intros st Hidx; simpl.
  - by rewrite with_residuals_nil.
  - rewrite add_track_spec by done. simpl.
    rewrite IH by done. simpl. by rewrite with_residuals_app.
Qed.

(** ** The intrinsics constraints *)

Lemma constrain_blocks_constant ndp ci l : ∀ p : problem_t,
  (wrap32 (4 + ndp) < N.of_nat (length ci))%N →
  foldl (constrain_block ndp ci) p l =
    MkProblem (residual_blocks p) (constant_blocks p ++ (IntrBlock <$> l))
              (parameterizations p).
Proof.
  induction l as [|i l IH]; intros p Hlt; simpl.
  - rewrite app_nil_r. by destruct p.
  - rewrite IH by done. unfold constrain_block. rewrite decide_True by done.
    simpl. by rewrite <- app_assoc.
Qed.

Lemma constrain_blocks_subset ndp ci l : ∀ p : problem_t,
  ¬ (wrap32 (4 + ndp) < N.of_nat (length ci))%N → ci ≠ [] →
  foldl (constrain_block ndp ci) p l =
    MkProblem (residual_blocks p) (constant_blocks p)
              (parameterizations p ++
               ((λ i, (IntrBlock i, (to_int (wrap32 (5 + ndp)), ci))) <$> l)).
Proof.
  induction l as [|i l IH]; intros p Hlt Hne; simpl.
  - rewrite app_nil_r. by destruct p.
  - rewrite IH by done. unfold constrain_block. rewrite decide_False by done.
    rewrite bool_decide_false by done. simpl. by rewrite <- app_assoc.
Qed.

Lemma constrain_blocks_free ndp l : ∀ p : problem_t,
  foldl (constrain_block ndp []) p l = p.
Proof.
  induction l as [|i l IH]; intros p; simpl; [done|].
  rewrite <- (IH p) at 2. f_equal. unfold constrain_block.
  rewrite decide_False by (simpl; lia). by rewrite bool_decide_true.
Qed.

Lemma constrain_block_residuals ndp ci (p : problem_t) i :
  residual_blocks (constrain_block ndp ci p i) = residual_blocks p.
Proof. unfold constrain_block. by repeat case_match. Qed.

Lemma apply_constraints_residuals ndp ci cip (p : problem_t) :
  residual_blocks (apply_constraints ndp ci cip p) = residual_blocks p.
Proof.
  unfold apply_constraints. generalize (seq 0 (length cip)). intros l.
  revert p. induction l as [|i l IH]; intros p; simpl; [done|].
  by rewrite IH, constrain_block_residuals.
Qed.

(** ** The solver writes only to the blocks of the problem *)

Lemma overwrite_length new old : length (overwrite new old) = length old.
Proof. unfold overwrite. rewrite length_app, length_take, length_drop. lia. Qed.

Lemma lookup_write_block b new s b' :
  lookup_block (write_block b new s) b' =
    if decide (b = b') then overwrite new <$> lookup_block s b'
    else lookup_block s b'.
Proof.
  destruct (decide (b = b')) as [<-|Hne].
  - destruct b; simpl;
      [apply list_lookup_alter_eq | apply lookup_alter_eq | apply lookup_alter_eq].
  - destruct b, b'; simpl; try done;
      [apply list_lookup_alter_ne | apply lookup_alter_ne | apply lookup_alter_ne];
      congruence.
Qed.

Lemma lookup_write_blocks (values : param_block → list double) s b bs :
  b ∉ bs →
  lookup_block (foldr (λ b, write_block b (values b)) s bs) b = lookup_block s b.
Proof.
  induction bs as [|b0 bs IH]; intros Hb; simpl; [done|].
  rewrite lookup_write_block. apply not_elem_of_cons in Hb as [Hne Hb].
  rewrite decide_False by done. by apply IH.
Qed.

Lemma shape_write_blocks (values : param_block → list double) s b bs :
  length <$> lookup_block (foldr (λ b, write_block b (values b)) s bs) b =
  length <$> lookup_block s b.
Proof.
  induction bs as [|b0 bs IH]; simpl; [done|].
  rewrite lookup_write_block. case_decide; [|done].
  rewrite <- IH, <- option_fmap_compose. apply option_fmap_ext.
  intros old. apply overwrite_length.
Qed.

Lemma run_solver_frame o (p : problem_t) s b :
  b ∉ problem_blocks p →
  lookup_block (run_solver o p s).1 b = lookup_block s b.
Proof.
  intros Hb. unfold run_solver. destruct (Solve o p (read_block s)) as [v r].
  simpl. by apply lookup_write_blocks.
Qed.

Lemma run_solver_shape o (p : problem_t) s b :
  length <$> lookup_block (run_solver o p s).1 b = length <$> lookup_block s b.
Proof.
  unfold run_solver. destruct (Solve o p (read_block s)) as [v r].
  simpl. apply shape_write_blocks.
Qed.

Lemma same_shape_dom (m m' : gmap Z (list double)) :
  (∀ t, length <$> m' !! t = length <$> m !! t) → dom m' = dom m.
Proof.
  intros Hs. apply set_eq. intros t. rewrite !elem_of_dom.
  specialize (Hs t). destruct (m !! t), (m' !! t); simpl in Hs;
    try done; split; intros [? ?]; done || by eexists.
Qed.

(** ** Writing the landmarks back *)

Lemma lookup_updated_landmarks lp (lms : gmap Z landmark) t :
  updated_landmarks lp lms !! t =
    (λ lm, match lp !! t ≫= map_vector_3d with
           | Some l => set_loc l (landmark_d_copy lm)
           | None => lm
           end) <$> lms !! t.
Proof. unfold updated_landmarks. rewrite map_lookup_imap. by destruct (lms !! t). Qed.

Lemma map_vector_3d_is_Some p :
  is_Some (map_vector_3d p) ↔ (3 ≤ length p)%nat.
Proof.
  destruct p as [|x [|y [|z p]]]; simpl; split;
    first [by intros [? ?] | lia | by eexists].
Qed.

Lemma three_values_insert t p (m : gmap Z (list double)) :
  m !! t = None →
  three_values (<[t := p]> m) ↔ (3 ≤ length p)%nat ∧ three_values m.
Proof.
  intros Hm. unfold three_values. split.
  - intros Hall. split; [apply (Hall t), lookup_insert_eq|].
    intros t' p' Hp'. apply (Hall t'). rewrite lookup_insert_ne; [done|].
    intros <-. congruence.
  - intros [Hp Hall] t' p'. destruct (decide (t = t')) as [<-|Hne].
    + rewrite lookup_insert_eq. by intros [= <-].
    + rewrite lookup_insert_ne by done. apply Hall.
Qed.

(** The loop over landmark_params, step by step: it is defined as long as
    every key it has visited is a key of [lms] and every vector it has read has
    three values, and then it has written exactly those positions. *)
Lemma update_landmarks_both lp (lms : gmap Z landmark) :
  (dom lp ⊆ dom lms ∧ three_values lp →
     update_landmarks lp lms = Some (updated_landmarks lp lms)) ∧
  (¬ (dom lp ⊆ dom lms ∧ three_values lp) → update_landmarks lp lms = None).
Proof.
  unfold update_landmarks.
  apply (map_fold_weak_ind
           (λ r m, (dom m ⊆ dom lms ∧ three_values m →
                      r = Some (updated_landmarks m lms)) ∧
                   (¬ (dom m ⊆ dom lms ∧ three_values m) → r = None))).
  - split.
    + intros _. f_equal. apply map_eq. intros t.
      rewrite lookup_updated_landmarks, lookup_empty. by destruct (lms !! t).
    + intros Hno. destruct Hno. split; [set_solver|]. by intros t p Hp.
  - intros t p m r Hm [IHyes IHno]. split.
    + intros [Hdom Hthree]. rewrite dom_insert in Hdom.
      apply three_values_insert in Hthree as [Hp Hthree]; [|done].
      rewrite IHyes by (split; [set_solver | done]). simpl.
      assert (is_Some (lms !! t)) as [lm Hlm] by (apply elem_of_dom; set_solver).
      apply map_vector_3d_is_Some in Hp as [l Hl].
      rewrite lookup_updated_landmarks, Hlm, Hm. simpl. rewrite Hl. simpl.
      f_equal. apply map_eq. intros t'. rewrite lookup_updated_landmarks.
      destruct (decide (t = t')) as [<-|Hne].
      * rewrite !lookup_insert_eq, Hlm. simpl. by rewrite Hl.
      * by rewrite !lookup_insert_ne, lookup_updated_landmarks.
    + intros Hno.
      destruct (decide (dom m ⊆ dom lms)) as [Hsub|Hsub];
        [|rewrite IHno; [done | by intros [? _]]].
      destruct (decide (map_Forall (λ _ p, (3 ≤ length p)%nat) m)) as [Hthree|Hthree];
        [|rewrite IHno; [done | by intros [_ ?]]].
      rewrite IHyes by done. simpl.
      rewrite lookup_updated_landmarks, Hm.
      destruct (lms !! t) as [lm|] eqn:Hlm; simpl; [|done].
      destruct (map_vector_3d p) as [l|] eqn:Hl; simpl; [|done].
      destruct Hno. split.
      * rewrite dom_insert. apply elem_of_dom_2 in Hlm. set_solver.
      * apply three_values_insert; [done|]. split; [|done].
        apply map_vector_3d_is_Some. by eexists.
Qed.

Lemma update_landmarks_spec lp (lms : gmap Z landmark) :
  dom lp ⊆ dom lms → three_values lp →
  update_landmarks lp lms = Some (updated_landmarks lp lms).
Proof. intros Hdom Hthree. by apply update_landmarks_both. Qed.

(** ** A call that gets past the guard *)

Lemma extraction_index_in_range ndp cams lms e :
  extraction_ok ndp cams e → index_in_range (initial_params lms e) (int_map e).
Proof.
  intros [Hext Hdom Hidx _ _] f. simpl. rewrite Hext, lookup_fmap.
  intros Hf. apply fmap_is_Some in Hf.
  assert (is_Some (int_map e !! f)) as [i Hi].
  { apply elem_of_dom. rewrite Hdom. by apply elem_of_dom. }
  exists i. split; [done|]. by apply Hidx in Hi.
Qed.

Lemma solved_landmark_dom o (p : problem_t) lms e :
  dom (landmark_params (run_solver o p (initial_params lms e)).1) = dom lms.
Proof.
  rewrite (same_shape_dom (landmark_params (initial_params lms e))).
  - simpl. unfold extract_landmark_params. apply dom_fmap_L.
  - intros t. apply (run_solver_shape o p _ (LmBlock t)).
Qed.

(** Every landmark block has three entries, before and after the solver. *)
Lemma landmark_block_length o (p : problem_t) lms e t v :
  landmark_params (run_solver o p (initial_params lms e)).1 !! t = Some v →
  length v = 3%nat.
Proof.
  intros Hv.
  pose proof (run_solver_shape o p (initial_params lms e) (LmBlock t)) as Hs.
  simpl in Hs. rewrite Hv in Hs. unfold extract_landmark_params in Hs.
  rewrite lookup_fmap in Hs. destruct (lms !! t); simpl in Hs; [|done].
  by injection Hs.
Qed.

Lemma optimize_null d cameras landmarks tracks :
  cameras = None ∨ landmarks = None ∨ tracks = None →
  optimize d cameras landmarks tracks =
    OptimizeResult cameras landmarks Returned [] None None.
Proof.
  intros Hnull. unfold optimize.
  destruct cameras, landmarks, tracks; try done.
  by destruct Hnull as [?|[?|?]].
Qed.

Lemma optimize_threw d cams lms trks :
  extract_camera_parameters (cam_opts d) cams = None →
  optimize d (Some cams) (Some lms) (Some trks) =
    OptimizeResult (Some cams) (Some lms) Threw [] None None.
Proof. intros He. unfold optimize. by rewrite He. Qed.

Lemma optimize_complete d cams lms trks e :
  extract_camera_parameters (cam_opts d) cams = Some e →
  let s := initial_params lms e in
  let loss_func := LossFunctionFactory (loss_function_type d) (loss_function_scale d) in
  let R := wanted_residuals d s loss_func (int_map e) trks in
  let problem :=
    apply_constraints (num_distortion_params (lens_distortion_type (cam_opts d)))
      (enumerate_constant_intrinsics (cam_opts d)) (int_params e)
      (MkProblem R [] []) in
  let solved := run_solver (options d) problem s in
  optimize d (Some cams) (Some lms) (Some trks) =
    OptimizeResult
      (Some (update_camera_parameters (camera_params solved.1)
               (camera_intr_params solved.1) (int_map e)))
      (Some (updated_landmarks (landmark_params solved.1) lms))
      Returned
      (([EvProblem; EvLossFunctionFactory loss_func] ++
        delete_unused_loss loss_func (nonempty R) ++
        [EvSolve (options d) problem;
         EvLog DEBUG ("Ceres Full Report:" ++ newline ++ solved.2)]) ++
       [EvProblemDestroyed problem])
      (Some problem) (Some solved.1).
Proof.
  intros He s loss_func R problem solved. unfold optimize. rewrite He.
  fold (initial_params lms e). fold s. fold loss_func.
  rewrite add_residuals_spec; simpl;
    [|eapply extraction_index_in_range, extract_camera_parameters_ok, He].
  fold R. unfold with_residuals. simpl. fold problem. fold solved.
  destruct solved as [s' report] eqn:Hsolved. simpl.
  replace s' with solved.1 by (by rewrite Hsolved).
  rewrite update_landmarks_spec; [done | |].
  - unfold solved, s. by rewrite solved_landmark_dom.
  - intros t v Hv. unfold solved, s in Hv.
    by rewrite (landmark_block_length _ _ _ _ _ _ Hv).
Qed.

(** Replace a call that gets past the guard by its result and project it. *)
Ltac run_optimize He :=
  rewrite (optimize_complete _ _ _ _ _ He);
  cbn [out_cameras out_landmarks status trace built_problem solved_params].

Lemma optimize_trace_no_check d cameras landmarks tracks :
  count_events is_is_valid (trace (optimize d cameras landmarks tracks)) = 0%nat.
Proof.
  destruct cameras as [cams|], landmarks as [lms|], tracks as [trks|];
    try (by rewrite optimize_null by auto).
  destruct (extract_camera_parameters (cam_opts d) cams) as [e|] eqn:He.
  - rewrite (optimize_complete _ _ _ _ _ He). simpl.
    unfold delete_unused_loss.
    destruct (LossFunctionFactory _ _); [destruct (nonempty _)|]; reflexivity.
  - by rewrite optimize_threw.
Qed.

Lemma optimize_complete_solves d cams lms trks e :
  extract_camera_parameters (cam_opts d) cams = Some e →
  let r := optimize d (Some cams) (Some lms) (Some trks) in
  status r = Returned ∧ problem_constructed r ∧ solver_invoked r.
Proof.
  intros He r. unfold r, problem_constructed, solver_invoked.
  rewrite (optimize_complete _ _ _ _ _ He). simpl. split; [done|]. split.
  - exists EvProblem. split; [|done]. apply list_elem_of_here.
  - eexists (EvSolve _ _). split; [|done].
    apply elem_of_cons. right. apply elem_of_cons. right.
    apply elem_of_app. left. apply elem_of_app. right. apply list_elem_of_here.
Qed.

(** ** The claims *)

(** C1 (as amended): for every call to optimize, if the camera collection, the
    landmark collection or the track collection is null, the operation returns
    immediately, before constructing the problem and without invoking the
    solver, and leaves the provided camera and landmark collections as they
    were. *)
Theorem C1_null_input_returns d cameras landmarks tracks :
  cameras = None ∨ landmarks = None ∨ tracks = None →
  let r := optimize d cameras landmarks tracks in
  status r = Returned ∧ ¬ problem_constructed r ∧ ¬ solver_invoked r ∧
  out_cameras r = cameras ∧ out_landmarks r = landmarks.
Proof.
  intros Hnull r. unfold r, problem_constructed, solver_invoked.
  rewrite optimize_null by done. simpl.
  repeat split; try done; intros (e & He & _); by apply elem_of_nil in He.
Qed.

(** C2 (as amended): the validity check of the solver options is what
    check_configuration does: it returns the verdict of the check and, when the
    options are invalid, logs the message at error severity.  optimize performs
    no validity check of its own: a call whose inputs are not null and whose
    cameras can be extracted invokes the solver with the stored options, valid
    or not, and returns. *)
Theorem C2_validity_check_is_separate d config cams lms trks e :
  extract_camera_parameters (cam_opts d) cams = Some e →
  (check_configuration d config).1 = (IsValid (options d)).1 ∧
  (check_configuration d config).2 =
    (if (IsValid (options d)).1 then [EvIsValid (options d)]
     else [EvIsValid (options d); EvLog ERROR (IsValid (options d)).2]) ∧
  let r := optimize d (Some cams) (Some lms) (Some trks) in
  count_events is_is_valid (trace r) = 0%nat ∧
  (∃ p, EvSolve (options d) p ∈ trace r) ∧ status r = Returned.
Proof.
  intros He. split; [|split; [|split; [|split]]].
  - unfold check_configuration. by destruct (IsValid (options d)) as [[] msg].
  - unfold check_configuration. by destruct (IsValid (options d)) as [[] msg].
  - apply optimize_trace_no_check.
  - run_optimize He. eexists.
    apply elem_of_cons. right. apply elem_of_cons. right.
    apply elem_of_app. left. apply elem_of_app. right. apply list_elem_of_here.
  - by eapply optimize_complete_solves.
Qed.

(** C10: check_configuration gives the same result (verdict and log output)
    for any two configuration blocks, on the same algorithm instance and on
    any two instances that hold the same solver options: the argument is
    ignored and only the stored solver options matter. *)
Theorem C10_check_configuration_ignores_argument d d' c1 c2 :
  options d = options d' →
  check_configuration d c1 = check_configuration d' c2.
Proof. intros Ho. unfold check_configuration. by rewrite Ho. Qed.

Lemma wanted_residuals_blocks d s loss_func fmap trks rb :
  index_in_range s fmap →
  rb ∈ wanted_residuals d s loss_func fmap trks →
  ∃ i f t, rb_params rb = [IntrBlock i; CamBlock f; LmBlock t] ∧
    fmap !! f = Some i ∧ is_Some (camera_intr_params s !! i) ∧
    is_Some (camera_params s !! f) ∧ is_Some (landmark_params s !! t).
Proof.
  intros Hidx Hrb. unfold wanted_residuals in Hrb.
  apply list_elem_of_bind in Hrb as (t & Hrb & _).
  apply list_elem_of_bind in Hrb as (ts & Hrb & _).
  unfold observation_residuals in Hrb. case_decide as Hin.
  - apply list_elem_of_singleton in Hrb as ->. destruct Hin as [Hlm Hcam].
    destruct (Hidx _ Hcam) as (i & Hi & Hlt).
    exists i, (frame_id ts), (id t). simpl. rewrite Hi. simpl.
    repeat split; try done. by apply lookup_lt_is_Some_2.
  - by apply elem_of_nil in Hrb.
Qed.

(** C4: for every track and every observation of its history, a reprojection
    residual is added exactly when the track's landmark is in the extracted
    landmark parameters and the observation's frame is in the extracted camera
    parameters; each added residual names three parameter blocks, all of them
    existing: the intrinsics group of the frame, the extrinsics of the frame
    and the position of the landmark. *)
Theorem C4_residual_per_valid_observation d s loss_func fmap p used trks :
  index_in_range s fmap →
  ∃ st added,
    add_residuals d s loss_func (BuildState p fmap used) trks = Some st ∧
    residual_blocks (bs_problem st) = residual_blocks p ++ added ∧
    added =
      (t ← trks; ts ← history t;
       if decide (is_Some (landmark_params s !! id t) ∧
                  is_Some (camera_params s !! frame_id ts))
       then [ResidualBlock
               (create_cost_func (lens_distortion_type (cam_opts d))
                                 (v2x (feat_loc ts)) (v2y (feat_loc ts)))
               loss_func
               [IntrBlock (default 0%nat (fmap !! frame_id ts));
                CamBlock (frame_id ts); LmBlock (id t)]]
       else []) ∧
    ∀ rb, rb ∈ added →
      ∃ i f t, rb_params rb = [IntrBlock i; CamBlock f; LmBlock t] ∧
        fmap !! f = Some i ∧ is_Some (camera_intr_params s !! i) ∧
        is_Some (camera_params s !! f) ∧ is_Some (landmark_params s !! t).
Proof.
  intros Hidx. eexists. exists (wanted_residuals d s loss_func fmap trks).
  split; [by apply add_residuals_spec|]. split; [done|]. split; [done|].
  intros rb. by apply wanted_residuals_blocks.
Qed.

Lemma wrap32_le n : (wrap32 n ≤ n)%N.
Proof. unfold wrap32. apply N.Div0.mod_le. Qed.

(** C5: when the number of constant intrinsic-parameter indices exceeds the
    parameter count 5 + D of an intrinsics block, every intrinsics block is set
    constant and no subset parameterization is constructed; when the list of
    constant indices is empty, the problem is left without any constraint. *)
Theorem C5_constant_intrinsics_policy ndp constant_intrinsics cip (p : problem_t) :
  let p' := apply_constraints ndp constant_intrinsics cip p in
  ((5 + ndp < N.of_nat (length constant_intrinsics))%N →
     constant_blocks p' = constant_blocks p ++ (IntrBlock <$> seq 0 (length cip)) ∧
     parameterizations p' = parameterizations p) ∧
  (constant_intrinsics = [] → p' = p).
Proof.
  intros p'. unfold p', apply_constraints. split.
  - intros Hgt. rewrite constrain_blocks_constant; [done|].
    pose proof (wrap32_le (4 + ndp)). lia.
  - intros ->. apply constrain_blocks_free.
Qed.

(** The block is also set constant when the count equals 5 + D: the test of
    the source is [size > 4 + ndp]. *)
Lemma constant_at_full_count ndp constant_intrinsics cip (p : problem_t) :
  N.of_nat (length constant_intrinsics) = (5 + ndp)%N →
  constant_blocks (apply_constraints ndp constant_intrinsics cip p) =
    constant_blocks p ++ (IntrBlock <$> seq 0 (length cip)).
Proof.
  intros Heq. unfold apply_constraints. rewrite constrain_blocks_constant; [done|].
  pose proof (wrap32_le (4 + ndp)). lia.
Qed.

(** A size that fits an [int] is handed over as it is. *)
Lemma to_int_wrap32_small n : (n < 2 ^ 31)%N → to_int (wrap32 n) = Z.of_N n.
Proof.
  intros Hn. unfold wrap32. rewrite N.mod_small by lia.
  unfold to_int. by rewrite decide_True.
Qed.

(** Below the full count a subset parameterization of size 5 + D is attached to
    every intrinsics block. *)
Lemma subset_below_full_count ndp constant_intrinsics cip (p : problem_t) :
  (5 + ndp < 2 ^ 31)%N → constant_intrinsics ≠ [] →
  (N.of_nat (length constant_intrinsics) < 5 + ndp)%N →
  apply_constraints ndp constant_intrinsics cip p =
    MkProblem (residual_blocks p) (constant_blocks p)
      (parameterizations p ++
       ((λ i, (IntrBlock i, (Z.of_N (5 + ndp), constant_intrinsics))) <$>
          seq 0 (length cip))).
Proof.
  intros Hsmall Hne Hlt. unfold apply_constraints.
  rewrite constrain_blocks_subset; [|  |done].
  - by rewrite to_int_wrap32_small.
  - unfold wrap32. rewrite N.mod_small by lia. lia.
Qed.

(** C9: for the maps the camera extraction yields, every frame with an entry
    in the extrinsics map has an entry in the frame-to-intrinsics-index map and
    that index is a position of the list of unique intrinsics; so the residual
    loop is defined on every track list (no subscript out of range) and leaves
    the frame-to-intrinsics-index map as it was (the map subscript inserts
    nothing). *)
Theorem C9_intrinsics_index_in_range d cams lms e :
  extract_camera_parameters (cam_opts d) cams = Some e →
  (∀ f, is_Some (ext_params e !! f) →
     ∃ i, int_map e !! f = Some i ∧ (i < length (int_params e))%nat) ∧
  ∀ loss_func p used trks, ∃ st,
    add_residuals d (initial_params lms e) loss_func
                  (BuildState p (int_map e) used) trks = Some st ∧
    bs_frame_to_intr_map st = int_map e.
Proof.
  intros He. apply extract_camera_parameters_ok in He.
  pose proof (extraction_index_in_range _ _ lms _ He) as Hidx. split.
  - apply Hidx.
  - intros loss_func p used trks. eexists.
    split; [by apply add_residuals_spec|]. done.
Qed.

(** ** The collections after the call *)


Lemma lookup_update_camera_parameters ext intr (im : gmap Z nat) f :
  cameras_of (update_camera_parameters ext intr im) !! f =
    (λ e, Camera e (im !! f)) <$> ext !! f.
Proof.
  unfold update_camera_parameters. simpl. rewrite map_lookup_imap.
  by destruct (ext !! f).
Qed.

Lemma dom_update_camera_parameters ext intr (im : gmap Z nat) :
  dom (cameras_of (update_camera_parameters ext intr im)) = dom ext.
Proof.
  apply set_eq. intros f.
  rewrite !elem_of_dom, lookup_update_camera_parameters. apply fmap_is_Some.
Qed.

Lemma dom_updated_landmarks lp (lms : gmap Z landmark) :
  dom (updated_landmarks lp lms) = dom lms.
Proof.
  apply set_eq. intros t.
  rewrite !elem_of_dom, lookup_updated_landmarks. apply fmap_is_Some.
Qed.

Lemma solved_camera_dom o (p : problem_t) lms cams ndp e :
  extraction_ok ndp cams e →
  dom (camera_params (run_solver o p (initial_params lms e)).1) =
    dom (cameras_of cams).
Proof.
  intros He. rewrite (same_shape_dom (camera_params (initial_params lms e))).
  - simpl. rewrite (ok_ext _ _ _ He). apply dom_fmap_L.
  - intros f. apply (run_solver_shape o p _ (CamBlock f)).
Qed.

(** Intrinsics that already have the 5 + D entries of the model are their own
    flattening. *)
Lemma flatten_intrinsics_full ndp K :
  length K = (5 + N.to_nat ndp)%nat → flatten_intrinsics ndp K = K.
Proof. intros HK. unfold flatten_intrinsics. rewrite <- HK. apply resize_all. Qed.

Lemma map_vector_3d_data v : map_vector_3d (vector_3d_data v) = Some v.
Proof. by destruct v. Qed.

Lemma vector_3d_data_map (p : list double) :
  length p = 3%nat → vector_3d_data <$> map_vector_3d p = Some p.
Proof. by destruct p as [|a [|b [|c [|]]]]. Qed.

Lemma set_loc_copy lm : set_loc (loc lm) (landmark_d_copy lm) = lm.
Proof. by destruct lm. Qed.

(** C6: for every call to optimize that returns, the frame IDs of the output
    camera collection are those of the input camera collection and the track
    IDs of the output landmark collection are those of the input landmark
    collection. *)
Theorem C6_membership_preserved d cameras landmarks tracks :
  status (optimize d cameras landmarks tracks) = Returned →
  frame_ids (out_cameras (optimize d cameras landmarks tracks)) = frame_ids cameras ∧
  track_ids (out_landmarks (optimize d cameras landmarks tracks)) = track_ids landmarks.
Proof.
  destruct cameras as [cams|], landmarks as [lms|], tracks as [trks|];
    try (by rewrite optimize_null by auto).
  destruct (extract_camera_parameters (cam_opts d) cams) as [e|] eqn:He.
  - intros _. run_optimize He. unfold frame_ids, track_ids.
    cbn [fmap option_fmap option_map].
    rewrite dom_update_camera_parameters, dom_updated_landmarks.
    by erewrite solved_camera_dom by (by apply extract_camera_parameters_ok).
  - by rewrite optimize_threw.
Qed.

(** C3 (as amended): in a call to optimize that gets past the guard, a
    landmark that no residual block refers to is in the output landmark
    collection unchanged; a camera whose extrinsics no residual block refers to
    is in the output camera collection with its extrinsics unchanged and, when
    no residual block refers to its intrinsics group either, with the
    intrinsics values of the instance it pointed to, flattened to the 5 + D
    entries of the configured distortion model (distortion coefficients
    zero-padded or cut to D). *)
Theorem C3_untouched_entities_pass_through d cams lms trks e :
  extract_camera_parameters (cam_opts d) cams = Some e →
  ∃ p out_c out_l,
    built_problem (optimize d (Some cams) (Some lms) (Some trks)) = Some p ∧
    out_cameras (optimize d (Some cams) (Some lms) (Some trks)) = Some out_c ∧
    out_landmarks (optimize d (Some cams) (Some lms) (Some trks)) = Some out_l ∧
    (∀ t lm, lms !! t = Some lm → LmBlock t ∉ problem_blocks p →
       out_l !! t = Some lm) ∧
    (∀ f c, cameras_of cams !! f = Some c → CamBlock f ∉ problem_blocks p →
       ∃ c', cameras_of out_c !! f = Some c' ∧
         cam_extrinsics c' = cam_extrinsics c ∧
         ((∀ i, int_map e !! f = Some i → IntrBlock i ∉ problem_blocks p) →
          camera_intrinsics_values out_c c' =
            flatten_intrinsics (num_distortion_params (lens_distortion_type (cam_opts d)))
              <$> camera_intrinsics_values cams c)).
Proof.
  intros He. run_optimize He.
  set (p := apply_constraints _ _ _ _).
  pose proof (extract_camera_parameters_ok _ _ _ He) as Hok.
  do 3 eexists. do 3 (split; [done|]). split.
  - intros t lm Hlm Ht. rewrite lookup_updated_landmarks, Hlm. simpl.
    pose proof (run_solver_frame (options d) p (initial_params lms e) _ Ht) as Hfr.
    simpl in Hfr. rewrite Hfr. unfold extract_landmark_params.
    rewrite lookup_fmap, Hlm. simpl.
    by destruct lm as [[x y z] c v].
  - intros f c Hc Hf.
    pose proof (run_solver_frame (options d) p (initial_params lms e) _ Hf) as Hfr.
    simpl in Hfr. rewrite (ok_ext _ _ _ Hok), lookup_fmap, Hc in Hfr.
    eexists. split; [by rewrite lookup_update_camera_parameters, Hfr|].
    split; [done|]. intros Hgroup.
    assert (is_Some (int_map e !! f)) as [i Hi].
    { apply elem_of_dom. rewrite (ok_dom _ _ _ Hok). by apply elem_of_dom. }
    destruct (ok_val _ _ _ Hok _ _ _ Hc Hi) as (K & HK & HKi).
    unfold camera_intrinsics_values at 1. simpl. rewrite Hi. simpl.
    rewrite lookup_map_seq_0, HK. simpl.
    pose proof (run_solver_frame (options d) p (initial_params lms e) _
                  (Hgroup _ Hi)) as Hfi.
    simpl in Hfi. by rewrite Hfi.
Qed.

(** C8: in a call to optimize that gets past the guard, every track ID of the
    landmark collection is mapped by the output collection to a landmark whose
    position is the parameter vector of that track as the solver left it, and
    whose other attributes are those of the original landmark. *)
Theorem C8_landmarks_rebuilt d cams lms trks e t lm :
  extract_camera_parameters (cam_opts d) cams = Some e →
  lms !! t = Some lm →
  ∃ p out_l lm' v,
    built_problem (optimize d (Some cams) (Some lms) (Some trks)) = Some p ∧
    solved_params (optimize d (Some cams) (Some lms) (Some trks)) =
      Some (run_solver (options d) p (initial_params lms e)).1 ∧
    landmark_params (run_solver (options d) p (initial_params lms e)).1 !! t = Some v ∧
    out_landmarks (optimize d (Some cams) (Some lms) (Some trks)) = Some out_l ∧
    out_l !! t = Some lm' ∧
    vector_3d_data (loc lm') = v ∧
    color lm' = color lm ∧ covar lm' = covar lm.
Proof.
  intros He Hlm. run_optimize He.
  set (p := apply_constraints _ _ _ _).
  assert (is_Some (landmark_params (run_solver (options d) p (initial_params lms e)).1 !! t))
    as [v Hv].
  { apply elem_of_dom. rewrite solved_landmark_dom. by apply elem_of_dom. }
  pose proof (vector_3d_data_map v (landmark_block_length _ _ _ _ _ _ Hv)) as Hread.
  destruct (map_vector_3d v) as [l|] eqn:Hl; [|done].
  injection Hread as Hread.
  exists p. eexists. eexists. exists v. do 3 (split; [done|]).
  split; [done|]. rewrite lookup_updated_landmarks, Hlm, Hv. simpl.
  rewrite Hl. done.
Qed.

(** ** The loss function *)

Lemma wanted_residuals_loss d s loss_func fmap trks rb :
  rb ∈ wanted_residuals d s loss_func fmap trks → rb_loss rb = loss_func.
Proof.
  unfold wanted_residuals. intros Hrb.
  apply list_elem_of_bind in Hrb as (t & Hrb & _).
  apply list_elem_of_bind in Hrb as (ts & Hrb & _).
  unfold observation_residuals in Hrb. case_decide.
  - by apply list_elem_of_singleton in Hrb as ->.
  - by apply elem_of_nil in Hrb.
Qed.

Lemma problem_owns_loss_nonempty (p : problem_t) l :
  (∀ rb, rb ∈ residual_blocks p → rb_loss rb = Some l) →
  problem_owns_loss p = nonempty (residual_blocks p).
Proof.
  unfold problem_owns_loss. destruct (residual_blocks p) as [|rb R]; [done|].
  intros Hl. simpl. rewrite (Hl rb) by apply list_elem_of_here.
  by rewrite bool_decide_true.
Qed.

Lemma problem_owns_loss_null (p : problem_t) :
  (∀ rb, rb ∈ residual_blocks p → rb_loss rb = None) →
  problem_owns_loss p = false.
Proof.
  unfold problem_owns_loss. induction (residual_blocks p) as [|rb R IH]; [done|].
  intros Hl. simpl. rewrite (Hl rb) by apply list_elem_of_here.
  rewrite bool_decide_false by (by intros [? ?]). simpl.
  apply IH. intros rb' Hrb'. apply Hl. by apply list_elem_of_further.
Qed.

Lemma completed_trace_counts o (p : problem_t) lf used msg :
  let tr := ([EvProblem; EvLossFunctionFactory lf] ++
             delete_unused_loss lf used ++
             [EvSolve o p; EvLog DEBUG msg]) ++ [EvProblemDestroyed p] in
  count_events is_factory_call tr = 1%nat ∧
  count_events is_loss_created tr = (match lf with Some _ => 1 | None => 0 end)%nat ∧
  count_events is_loss_deleted tr =
    (match lf with Some _ => if used then 0 else 1 | None => 0 end)%nat ∧
  count_events freed_by_problem tr = (if problem_owns_loss p then 1 else 0)%nat.
Proof.
  unfold count_events, delete_unused_loss.
  destruct lf, used, (problem_owns_loss p) eqn:Howns; cbn; rewrite ?Howns; done.
Qed.

(** C7 (as amended): a call to optimize creates at most one loss-function
    instance and frees exactly what it creates, so an instance is never leaked
    and never freed twice.  A call that returns at the null-input guard does
    not call the factory.  A call that builds the problem calls the factory
    once (and every call whose inputs are not null and whose cameras can be
    extracted builds it); the pointer the factory gives (an instance, or null)
    is the loss function of every residual block; when an instance was created,
    it is owned and freed by the problem and not deleted by optimize if at
    least one residual block was added, and deleted by optimize, once, if none
    was. *)
Theorem C7_loss_function_ownership d cameras landmarks tracks :
  let r := optimize d cameras landmarks tracks in
  let loss_func :=
    LossFunctionFactory (loss_function_type d) (loss_function_scale d) in
  (loss_created (trace r) ≤ 1)%nat ∧
  loss_freed (trace r) = loss_created (trace r) ∧
  (cameras = None ∨ landmarks = None ∨ tracks = None →
     count_events is_factory_call (trace r) = 0%nat) ∧
  (∀ cams, cameras = Some cams → is_Some landmarks → is_Some tracks →
     is_Some (extract_camera_parameters (cam_opts d) cams) →
     is_Some (built_problem r)) ∧
  (∀ p, built_problem r = Some p →
     count_events is_factory_call (trace r) = 1%nat ∧
     loss_created (trace r) = (match loss_func with Some _ => 1 | None => 0 end)%nat ∧
     (∀ rb, rb ∈ residual_blocks p → rb_loss rb = loss_func) ∧
     (∀ l, loss_func = Some l →
        if nonempty (residual_blocks p)
        then count_events is_loss_deleted (trace r) = 0%nat ∧
             count_events freed_by_problem (trace r) = 1%nat
        else count_events is_loss_deleted (trace r) = 1%nat ∧
             count_events freed_by_problem (trace r) = 0%nat)).
Proof.
  intros r loss_func. unfold r.
  destruct cameras as [cams|], landmarks as [lms|], tracks as [trks|];
    try (rewrite optimize_null by auto; cbn;
         split; [lia|]; split; [done|]; split; [done|];
         split; [by intros ? ? [? ?] [? ?] _ | by intros ? ?]).
  destruct (extract_camera_parameters (cam_opts d) cams) as [e|] eqn:He;
    [|rewrite optimize_threw by done; cbn;
      split; [lia|]; split; [done|]; split; [done|];
      split; [intros ? [= <-] _ _ [? ?]; congruence | by intros ? ?]].
  run_optimize He. fold loss_func.
  set (R := wanted_residuals _ _ _ _ _).
  set (p := apply_constraints _ _ _ _).
  set (msg := (_ ++ _)%string).
  clearbody loss_func msg.
  assert (HR : residual_blocks p = R) by apply apply_constraints_residuals.
  assert (Hloss : ∀ rb, rb ∈ residual_blocks p → rb_loss rb = loss_func).
  { intros rb. rewrite HR. apply wanted_residuals_loss. }
  destruct (completed_trace_counts (options d) p loss_func (nonempty R) msg)
    as (Hcall & Hnew & Hdel & Hfree).
  unfold loss_created, loss_freed. rewrite Hcall, Hnew, Hdel, Hfree.
  assert (Howns : problem_owns_loss p =
                  match loss_func with Some _ => nonempty R | None => false end).
  { destruct loss_func as [l|].
    - rewrite <- HR. by apply (problem_owns_loss_nonempty p l).
    - by apply problem_owns_loss_null. }
  rewrite Howns. split; [destruct loss_func; lia|]. split.
  { destruct loss_func; [destruct (nonempty R)|]; lia. }
  split; [by intros [?|[?|?]]|]. split; [by eexists|].
  intros p' [= <-]. do 3 (split; [done|]).
  intros l Hl. rewrite HR, Hl. by destruct (nonempty R).
Qed.

End Facts.

(** * Further properties of the loops of optimize *)

Section MoreFacts.
Context `{CeresEnv}.

(** ** The residual loop as one fold *)

Lemma foldl_opt_app {A B} (f : A → B → option A) l1 l2 : ∀ a,
  foldl_opt f a (l1 ++ l2) = a' ← foldl_opt f a l1; foldl_opt f a' l2.
Proof.
  induction l1 as [|x l1 IH]; intros a; simpl; [done|].
  destruct (f a x) as [a'|]; simpl; [apply IH | done].
Qed.

Lemma add_flat_present d s loss st o p :
  landmark_params s !! o.1 = Some p →
  add_flat d s loss st o = add_observation d s loss o.1 st o.2.
Proof. intros Hlm. unfold add_flat. by rewrite Hlm. Qed.

Lemma add_flat_absent d s loss st o :
  landmark_params s !! o.1 = None → add_flat d s loss st o = Some st.
Proof. intros Hlm. unfold add_flat. by rewrite Hlm. Qed.

Lemma add_track_flat d s loss st t :
  add_track d s loss st t =
    foldl_opt (add_flat d s loss) st ((λ ts, (id t, ts)) <$> history t).
Proof.
  unfold add_track. generalize (history t). intros obs. revert st.
  destruct (landmark_params s !! id t) as [p|] eqn:Hlm.
  - induction obs as [|ts obs IH]; intros st; [done|].
    rewrite fmap_cons. cbn [foldl_opt].
    rewrite (add_flat_present _ _ _ _ (id t, ts) p Hlm). cbn [fst snd].
    destruct (add_observation d s loss (id t) st ts); simpl; [apply IH | done].
  - induction obs as [|ts obs IH]; intros st; [done|].
    rewrite fmap_cons. cbn [foldl_opt].
    rewrite (add_flat_absent _ _ _ _ (id t, ts) Hlm). simpl. apply IH.
Qed.

Lemma observations_cons t trks :
  observations (t :: trks) = ((λ ts, (id t, ts)) <$> history t) ++ observations trks.
Proof.
  unfold observations. rewrite bind_cons.
  assert (Hmap : ∀ obs : list track_state,
            (ts ← obs; [(id t, ts)]) = (λ ts, (id t, ts)) <$> obs).
  { induction obs as [|ts obs IH]; [done|]. by rewrite bind_cons, fmap_cons, IH. }
  by rewrite Hmap.
Qed.

Lemma add_residuals_flat d s loss trks : ∀ st,
  add_residuals d s loss st trks =
    foldl_opt (add_flat d s loss) st (observations trks).
Proof.
  unfold add_residuals.
  induction trks as [|t trks IH]; intros st; [done|].
  rewrite observations_cons, foldl_opt_app. simpl.
  rewrite add_track_flat.
  destruct (foldl_opt _ st _) as [st1|]; simpl; [apply IH | done].
Qed.

Lemma wanted_residuals_flat d s loss m trks :
  wanted_residuals d s loss m trks =
    (o ← observations trks; observation_residuals d s loss m o.1 o.2).
Proof.
  unfold wanted_residuals.
  induction trks as [|t trks IH]; [done|].
  rewrite observations_cons, bind_cons, bind_app, IH. f_equal.
  induction (history t) as [|ts obs IHo]; [done|].
  rewrite bind_cons, fmap_cons, bind_cons, IHo. done.
Qed.

(** ** What the residual loop does when nothing is known of the maps *)

Lemma map_grows_refl s m : map_grows s m m.
Proof. intros f. by left. Qed.

Lemma map_grows_trans s m1 m2 m3 :
  map_grows s m1 m2 → map_grows s m2 m3 → map_grows s m1 m3.
Proof.
  intros H1 H2 f.
  destruct (H1 f) as [E1|(N1 & Z1 & C1)], (H2 f) as [E2|(N2 & Z2 & C2)].
  - left. congruence.
  - right. repeat split; first [done | congruence].
  - right. repeat split; first [done | congruence].
  - congruence.
Qed.

Lemma map_grows_stable s m m' f :
  map_grows s m m' → is_Some (m !! f) → m' !! f = m !! f.
Proof. intros Hg [i Hi]. destruct (Hg f) as [?|(? & _)]; congruence. Qed.

Lemma with_map_id st : with_map st (bs_frame_to_intr_map st) = st.
Proof. by destruct st. Qed.

Lemma observation_residuals_stable d s loss m1 m2 o :
  (observed s o → m1 !! frame_id o.2 = m2 !! frame_id o.2) →
  observation_residuals d s loss m1 o.1 o.2 =
  observation_residuals d s loss m2 o.1 o.2.
Proof.
  intros Hm. unfold observation_residuals. case_decide as Ho; [|done].
  by rewrite (Hm Ho).
Qed.

Lemma add_flat_step d s loss st o st' :
  add_flat d s loss st o = Some st' →
  map_grows s (bs_frame_to_intr_map st) (bs_frame_to_intr_map st') ∧
  (observed s o →
     ∃ i, bs_frame_to_intr_map st' !! frame_id o.2 = Some i ∧
          is_Some (camera_intr_params s !! i)) ∧
  st' = with_residuals (with_map st (bs_frame_to_intr_map st'))
          (observation_residuals d s loss (bs_frame_to_intr_map st') o.1 o.2).
Proof.
  unfold add_flat, observed, observation_residuals.
  destruct (landmark_params s !! o.1) as [p|] eqn:Hlm.
  2:{ intros [= <-]. split; [apply map_grows_refl|].
      split; [by intros [[? ?] _]|].
      rewrite decide_False by (by intros [[? ?] _]).
      by rewrite with_map_id, with_residuals_nil. }
  unfold add_observation.
  destruct (camera_params s !! frame_id o.2) as [ext|] eqn:Hcam.
  2:{ intros [= <-]. split; [apply map_grows_refl|].
      split; [by intros [_ [? ?]]|].
      rewrite decide_False by (by intros [_ [? ?]]).
      by rewrite with_map_id, with_residuals_nil. }
  rewrite decide_True by (split; by eexists).
  unfold map_subscript.
  destruct (bs_frame_to_intr_map st !! frame_id o.2) as [v|] eqn:Hv.
  - destruct (camera_intr_params s !! v) as [K|] eqn:HK; [|done].
    intros [= <-]. simpl. split; [apply map_grows_refl|].
    split; [intros _; exists v; split; [done | by eexists]|].
    rewrite Hv. unfold with_residuals, with_map, AddResidualBlock. simpl.
    by rewrite orb_true_r.
  - destruct (camera_intr_params s !! 0%nat) as [K|] eqn:HK; [|done].
    intros [= <-]. simpl. split.
    { intros f. destruct (decide (frame_id o.2 = f)) as [<-|Hne].
      - right. rewrite lookup_insert_eq. repeat split; first [done | by eexists].
      - left. by rewrite lookup_insert_ne. }
    rewrite lookup_insert_eq.
    split; [intros _; exists 0%nat; split; [done | by eexists]|].
    unfold with_residuals, with_map, AddResidualBlock. simpl.
    by rewrite orb_true_r.
Qed.

Lemma add_flat_fold d s loss os : ∀ st st',
  foldl_opt (add_flat d s loss) st os = Some st' →
  map_grows s (bs_frame_to_intr_map st) (bs_frame_to_intr_map st') ∧
  (∀ o, o ∈ os → observed s o →
     ∃ i, bs_frame_to_intr_map st' !! frame_id o.2 = Some i ∧
          is_Some (camera_intr_params s !! i)) ∧
  st' = with_residuals (with_map st (bs_frame_to_intr_map st'))
          (o ← os; observation_residuals d s loss (bs_frame_to_intr_map st') o.1 o.2).
Proof.
  induction os as [|o os IH]; intros st st' Hfold.
  - injection Hfold as <-. split; [apply map_grows_refl|].
    split; [by intros o Ho%elem_of_nil|].
    rewrite with_map_id. symmetry. apply with_residuals_nil.
  - simpl in Hfold.
    destruct (add_flat d s loss st o) as [st1|] eqn:Hstep; [|done].
    simpl in Hfold.
    destruct (add_flat_step _ _ _ _ _ _ Hstep) as (G1 & V1 & E1).
    destruct (IH _ _ Hfold) as (G2 & V2 & E2).
    set (m1 := bs_frame_to_intr_map st1) in *.
    set (m' := bs_frame_to_intr_map st') in *.
    assert (Hsame : observed s o → m1 !! frame_id o.2 = m' !! frame_id o.2).
    { intros Ho. destruct (V1 Ho) as (i & Hi & _). symmetry.
      apply (map_grows_stable s); [done | by eexists]. }
    split; [by eapply map_grows_trans|]. split.
    + intros o' [->|Ho']%elem_of_cons Hobs; [|by apply V2].
      destruct (V1 Hobs) as (i & Hi & HK). exists i. split; [|done].
      by rewrite <- (Hsame Hobs).
    + clearbody m1 m'. rewrite E2, E1. rewrite bind_cons.
      rewrite (observation_residuals_stable d s loss m1 m' o Hsame).
      unfold with_residuals, with_map. simpl.
      rewrite <- app_assoc, <- orb_assoc. do 2 f_equal.
      by destruct (observation_residuals d s loss m' o.1 o.2),
                  (os ≫= _).
Qed.

Lemma add_residuals_general d s loss st trks st' :
  add_residuals d s loss st trks = Some st' →
  map_grows s (bs_frame_to_intr_map st) (bs_frame_to_intr_map st') ∧
  (∀ o, o ∈ observations trks → observed s o →
     ∃ i, bs_frame_to_intr_map st' !! frame_id o.2 = Some i ∧
          is_Some (camera_intr_params s !! i)) ∧
  st' = with_residuals (with_map st (bs_frame_to_intr_map st'))
          (wanted_residuals d s loss (bs_frame_to_intr_map st') trks).
Proof.
  rewrite add_residuals_flat, wanted_residuals_flat. apply add_flat_fold.
Qed.

Lemma add_flat_skips d s loss st o :
  ¬ observed s o → add_flat d s loss st o = Some st.
Proof.
  unfold observed, add_flat, add_observation. intros Hno.
  destruct (landmark_params s !! o.1) as [p|] eqn:Hlm; [|done].
  destruct (camera_params s !! frame_id o.2) as [ext|] eqn:Hcam; [|done].
  destruct Hno. split; by eexists.
Qed.

Lemma elem_of_wanted_residuals d s loss m trks rb :
  rb ∈ wanted_residuals d s loss m trks →
  ∃ o, o ∈ observations trks ∧ observed s o ∧
    rb = ResidualBlock
           (create_cost_func (lens_distortion_type (cam_opts d))
                             (v2x (feat_loc o.2)) (v2y (feat_loc o.2)))
           loss
           [IntrBlock (default 0%nat (m !! frame_id o.2));
            CamBlock (frame_id o.2); LmBlock o.1].
Proof.
  rewrite wanted_residuals_flat. intros (o & Hrb & Ho)%list_elem_of_bind.
  exists o. split; [done|]. unfold observation_residuals in Hrb.
  case_decide as Hobs; [|by apply elem_of_nil in Hrb].
  by apply list_elem_of_singleton in Hrb.
Qed.

Lemma elem_of_concat {A} (x : A) (ls : list (list A)) :
  x ∈ concat ls → ∃ l, x ∈ l ∧ l ∈ ls.
Proof.
  induction ls as [|l ls IH]; simpl; [by intros ?%elem_of_nil|].
  intros [Hx|Hx]%elem_of_app.
  - exists l. split; [done | apply list_elem_of_here].
  - destruct (IH Hx) as (l' & ? & ?). exists l'.
    split; [done | by apply list_elem_of_further].
Qed.

(** X1: whenever the residual loop runs to its end, whatever
    frame_to_intr_map held at the start, the residual blocks it appended are
    one per observation whose landmark and frame both have parameters, in the
    order visited, each wired to the intrinsics index the final
    frame_to_intr_map has for its frame; the loop changes nothing else of the
    problem and sets the used flag exactly when it appended a block. *)
Theorem X1_completed_loop_residuals d s loss_func st trks st' :
  add_residuals d s loss_func st trks = Some st' →
  residual_blocks (bs_problem st') =
    residual_blocks (bs_problem st) ++
    (t ← trks; ts ← history t;
     if decide (is_Some (landmark_params s !! id t) ∧
                is_Some (camera_params s !! frame_id ts))
     then [ResidualBlock
             (create_cost_func (lens_distortion_type (cam_opts d))
                               (v2x (feat_loc ts)) (v2y (feat_loc ts)))
             loss_func
             [IntrBlock (default 0%nat (bs_frame_to_intr_map st' !! frame_id ts));
              CamBlock (frame_id ts); LmBlock (id t)]]
     else []) ∧
  constant_blocks (bs_problem st') = constant_blocks (bs_problem st) ∧
  parameterizations (bs_problem st') = parameterizations (bs_problem st) ∧
  bs_loss_func_used st' =
    bs_loss_func_used st ||
    negb (bool_decide (length (residual_blocks (bs_problem st')) =
                       length (residual_blocks (bs_problem st)))).
Proof.
  intros Hrun. destruct (add_residuals_general _ _ _ _ _ _ Hrun) as (_ & _ & E).
  set (m' := bs_frame_to_intr_map st') in *. clearbody m'. subst st'.
  unfold with_residuals, with_map. simpl. repeat split.
  rewrite length_app. f_equal.
  destruct (wanted_residuals d s loss_func m' trks) as [|rb R]; simpl.
  - rewrite bool_decide_true by lia. done.
  - rewrite bool_decide_false by lia. done.
Qed.

(** X2: whenever the residual loop runs to its end, every parameter block it
    handed to the problem is the address of an existing vector of the three
    parameter containers: if this held of the blocks the problem had before,
    it holds of all its blocks after. *)
Theorem X2_registered_blocks_exist d s loss_func st trks st' :
  add_residuals d s loss_func st trks = Some st' →
  (∀ b, b ∈ problem_blocks (bs_problem st) → is_Some (lookup_block s b)) →
  ∀ b, b ∈ problem_blocks (bs_problem st') → is_Some (lookup_block s b).
Proof.
  intros Hrun Hold b.
  destruct (add_residuals_general _ _ _ _ _ _ Hrun) as (_ & V & E).
  set (m' := bs_frame_to_intr_map st') in *. clearbody m'. subst st'.
  unfold problem_blocks, with_residuals. simpl.
  rewrite fmap_app, concat_app.
  intros [Hb|Hb]%elem_of_app; [by apply Hold|].
  apply elem_of_concat in Hb as (bs & Hb & Hbs).
  apply list_elem_of_fmap in Hbs as (rb & -> & Hrb).
  apply elem_of_wanted_residuals in Hrb as (o & Ho & Hobs & ->).
  simpl in Hb. destruct (V o Ho Hobs) as (i & Hi & HK). rewrite Hi in Hb.
  destruct Hobs as [Hlm Hcam]. simpl in Hb.
  apply elem_of_cons in Hb as [->|Hb]; [done|].
  apply elem_of_cons in Hb as [->|Hb]; [done|].
  apply list_elem_of_singleton in Hb as ->. done.
Qed.

(** X3: the subscript on frame_to_intr_map in the residual loop never changes
    an entry the map had; an entry the loop leaves behind that the map did not
    have is a zero, for a frame that has extrinsics. *)
Theorem X3_frame_to_intr_map_only_grows d s loss_func st trks st' :
  add_residuals d s loss_func st trks = Some st' →
  ∀ f, bs_frame_to_intr_map st' !! f = bs_frame_to_intr_map st !! f ∨
       (bs_frame_to_intr_map st !! f = None ∧
        bs_frame_to_intr_map st' !! f = Some 0%nat ∧
        is_Some (camera_params s !! f)).
Proof.
  intros Hrun. by destruct (add_residuals_general _ _ _ _ _ _ Hrun) as (G & _ & _).
Qed.

(** X4: tracks whose landmark has no parameters and observations whose frame
    has no parameters are skipped without any effect: on a track list in which
    no observation has both, the loop runs to its end and leaves the problem,
    the map and the used flag as they were, whatever the maps hold. *)
Theorem X4_filtered_observations_are_skipped d s loss_func st trks :
  (∀ t ts, t ∈ trks → ts ∈ history t →
     landmark_params s !! id t = None ∨ camera_params s !! frame_id ts = None) →
  add_residuals d s loss_func st trks = Some st.
Proof.
  intros Hskip. rewrite add_residuals_flat.
  assert (Hno : ∀ o, o ∈ observations trks → ¬ observed s o).
  { intros o (t & Ho & Ht)%list_elem_of_bind.
    apply list_elem_of_bind in Ho as (ts & Ho & Hts).
    apply list_elem_of_singleton in Ho as ->.
    intros [[p Hp] [e He]]. simpl in *.
    destruct (Hskip t ts Ht Hts); congruence. }
  induction (observations trks) as [|o os IH]; [done|]. simpl.
  rewrite add_flat_skips by (apply Hno, list_elem_of_here). simpl.
  apply IH. intros o' Ho'. apply Hno. by apply list_elem_of_further.
Qed.

(** ** The constraint loop on every input *)

(** X5: the constraint loop treats every intrinsics block alike and gives it
    one constraint or none: with more than 4 + D constant indices (in unsigned
    arithmetic) every block is set constant; otherwise, with a non-empty list,
    every block gets one subset parameterization with that list, whose size is
    the unsigned 5 + D as the [int] the constructor takes; with an empty list
    the problem is left as it was.  Residual blocks are never touched. *)
Theorem X5_constraint_loop_closed_form ndp constant_intrinsics cip (p : problem_t) :
  apply_constraints ndp constant_intrinsics cip p =
    if decide (wrap32 (4 + ndp) < N.of_nat (length constant_intrinsics))%N
    then MkProblem (residual_blocks p)
           (constant_blocks p ++ (IntrBlock <$> seq 0 (length cip)))
           (parameterizations p)
    else if bool_decide (constant_intrinsics = [])
    then p
    else MkProblem (residual_blocks p) (constant_blocks p)
           (parameterizations p ++
            ((λ i, (IntrBlock i, (to_int (wrap32 (5 + ndp)), constant_intrinsics))) <$>
               seq 0 (length cip))).
Proof.
  unfold apply_constraints. case_decide as Hgt.
  - by apply constrain_blocks_constant.
  - case_bool_decide as Hnil.
    + subst. apply constrain_blocks_free.
    + by apply constrain_blocks_subset.
Qed.

(** X6: for a distortion model whose block size 5 + D fits an [int], the
    threshold of the constraint loop is the full count: with at least 5 + D
    constant indices every intrinsics block is set constant and no
    parameterization is built; with at least one and fewer than 5 + D, no
    block is set constant and every block gets a subset parameterization of
    size 5 + D. *)
Theorem X6_constant_threshold_is_full_count ndp constant_intrinsics cip (p : problem_t) :
  (5 + ndp < 2 ^ 31)%N →
  let n := N.of_nat (length constant_intrinsics) in
  let p' := apply_constraints ndp constant_intrinsics cip p in
  ((5 + ndp ≤ n)%N →
     constant_blocks p' = constant_blocks p ++ (IntrBlock <$> seq 0 (length cip)) ∧
     parameterizations p' = parameterizations p) ∧
  ((0 < n < 5 + ndp)%N →
     constant_blocks p' = constant_blocks p ∧
     parameterizations p' =
       parameterizations p ++
       ((λ i, (IntrBlock i, (Z.of_N (5 + ndp), constant_intrinsics))) <$>
          seq 0 (length cip))).
Proof.
  intros Hfit n p'. unfold p', apply_constraints.
  assert (H4 : wrap32 (4 + ndp) = (4 + ndp)%N)
    by (unfold wrap32; apply N.mod_small; lia).
  split; intros Hn.
  - rewrite constrain_blocks_constant; [done|]. fold n. lia.
  - rewrite constrain_blocks_subset.
    + by rewrite to_int_wrap32_small.
    + fold n. lia.
    + intros ->. unfold n in Hn. simpl in Hn. lia.
Qed.

(** ** Writing the landmarks back, on any pair of maps *)

(** X7: writing the landmarks back is undefined as soon as one track ID with
    a parameter vector is not a track ID of the landmark collection (the
    subscript yields a null pointer that is dereferenced) or one parameter
    vector has fewer than three values (the position is read past its
    end). *)
Theorem X7_landmark_update_undefined lp (lms : gmap Z landmark) t p :
  lp !! t = Some p →
  lms !! t = None ∨ (length p < 3)%nat →
  update_landmarks lp lms = None.
Proof.
  intros Hp Hbad. apply update_landmarks_both. intros [Hdom Hthree].
  destruct Hbad as [Hnone|Hshort].
  - apply not_elem_of_dom in Hnone. apply elem_of_dom_2 in Hp. set_solver.
  - specialize (Hthree t p Hp). lia.
Qed.

(** X8: when every track ID with a parameter vector is in the landmark
    collection and every parameter vector has three values at least, writing
    the landmarks back is defined, keeps the track IDs of the collection,
    leaves every landmark without a parameter vector exactly as it was, and
    gives every landmark with a parameter vector the position made of the
    first three values of its vector. *)
Theorem X8_landmark_update_content lp (lms : gmap Z landmark) :
  dom lp ⊆ dom lms →
  (∀ t p, lp !! t = Some p → (3 ≤ length p)%nat) →
  ∃ lms', update_landmarks lp lms = Some lms' ∧
    dom lms' = dom lms ∧
    (∀ t, lp !! t = None → lms' !! t = lms !! t) ∧
    (∀ t p, lp !! t = Some p →
       ∃ lm', lms' !! t = Some lm' ∧ vector_3d_data (loc lm') = take 3 p).
Proof.
  intros Hdom Hthree. exists (updated_landmarks lp lms).
  split; [by apply update_landmarks_spec|].
  split; [apply dom_updated_landmarks|]. split.
  - intros t Ht. rewrite lookup_updated_landmarks, Ht. by destruct (lms !! t).
  - intros t p Ht.
    assert (is_Some (lms !! t)) as [lm Hlm].
    { apply elem_of_dom, Hdom. by apply elem_of_dom_2 in Ht. }
    pose proof (Hthree t p Ht) as Hlen.
    destruct p as [|x [|y [|z p]]]; simpl in Hlen; try lia.
    eexists. rewrite lookup_updated_landmarks, Hlm, Ht. simpl. done.
Qed.

(** X9: extracting the landmark positions into the parameter map and writing
    them straight back gives a collection with the same track IDs and the same
    position for every landmark: the two conversions between a position and
    its three doubles are inverse to each other. *)
Theorem X9_landmark_positions_round_trip (lms : gmap Z landmark) :
  ∃ lms', update_landmarks (extract_landmark_params lms) lms = Some lms' ∧
    dom lms' = dom lms ∧ loc <$> lms' = loc <$> lms.
Proof.
  exists (updated_landmarks (extract_landmark_params lms) lms).
  split; [|split].
  - apply update_landmarks_spec; unfold extract_landmark_params.
    + by rewrite dom_fmap_L.
    + intros t p. rewrite lookup_fmap.
      destruct (lms !! t); simpl; [|done]. by intros [= <-].
  - apply dom_updated_landmarks.
  - apply map_eq. intros t. rewrite !lookup_fmap, lookup_updated_landmarks.
    unfold extract_landmark_params. rewrite lookup_fmap.
    by destruct (lms !! t) as [[[x y z] c v]|].
Qed.

(** ** The unchecked subscript of the residual loop *)

Lemma elem_of_observations o trks :
  o ∈ observations trks ↔ ∃ t, t ∈ trks ∧ o.1 = id t ∧ o.2 ∈ history t.
Proof.
  unfold observations. rewrite list_elem_of_bind. split.
  - intros (t & (ts & ->%list_elem_of_singleton & Hts)%list_elem_of_bind & Ht).
    by exists t.
  - intros (t & Ht & Hid & Hts). exists t. split; [|done].
    apply list_elem_of_bind. exists o.2. split; [|done].
    apply list_elem_of_singleton. destruct o as [i ts]. simpl in *. by subst.
Qed.

Lemma map_grows_default s m m' f :
  map_grows s m m' → default 0%nat (m' !! f) = default 0%nat (m !! f).
Proof. intros Hg. destruct (Hg f) as [->|(-> & -> & _)]; done. Qed.

Lemma add_flat_defined d s loss st o :
  is_Some (add_flat d s loss st o) ↔
  (observed s o →
   is_Some (camera_intr_params s !!
              default 0%nat (bs_frame_to_intr_map st !! frame_id o.2))).
Proof.
  unfold add_flat, observed, add_observation, map_subscript.
  destruct (landmark_params s !! o.1) as [p|] eqn:Hlm.
  2:{ split; [by intros _ [[? ?] _] | intros _; by eexists]. }
  destruct (camera_params s !! frame_id o.2) as [ext|] eqn:Hcam.
  2:{ split; [by intros _ [_ [? ?]] | intros _; by eexists]. }
  destruct (bs_frame_to_intr_map st !! frame_id o.2) as [v|] eqn:Hv; simpl.
  - destruct (camera_intr_params s !! v) as [K|] eqn:HK.
    + split; [intros _ _; by eexists | intros _; by eexists].
    + split; [by intros [? ?] | intros Hi; destruct Hi as [? ?]; [split; by eexists | done]].
  - destruct (camera_intr_params s !! 0%nat) as [K|] eqn:HK.
    + split; [intros _ _; by eexists | intros _; by eexists].
    + split; [by intros [? ?] | intros Hi; destruct Hi as [? ?]; [split; by eexists | done]].
Qed.

Lemma add_flat_fold_defined d s loss os : ∀ st,
  is_Some (foldl_opt (add_flat d s loss) st os) ↔
  ∀ o, o ∈ os → observed s o →
    is_Some (camera_intr_params s !!
               default 0%nat (bs_frame_to_intr_map st !! frame_id o.2)).
Proof.
  induction os as [|o os IH]; intros st.
  - split; [by intros _ o Ho%elem_of_nil | by eexists].
  - cbn [foldl_opt]. split.
    + intros Hdef.
      destruct (add_flat d s loss st o) as [st1|] eqn:Hstep;
        [|by destruct Hdef].
      simpl in Hdef.
      destruct (add_flat_step _ _ _ _ _ _ Hstep) as (Hg & _).
      intros o' [->|Ho']%elem_of_cons Hobs.
      * apply (add_flat_defined d s loss); [by rewrite Hstep | done].
      * rewrite <- (map_grows_default s _ _ _ Hg). by apply (IH st1).
    + intros Hall.
      assert (is_Some (add_flat d s loss st o)) as [st1 Hstep].
      { apply add_flat_defined. apply Hall. apply list_elem_of_here. }
      rewrite Hstep. simpl.
      destruct (add_flat_step _ _ _ _ _ _ Hstep) as (Hg & _).
      apply IH. intros o' Ho' Hobs.
      rewrite (map_grows_default s _ _ _ Hg).
      apply Hall; [by apply list_elem_of_further | done].
Qed.

(** X15: the residual loop is undefined as soon as one observation that gets
    a residual block finds no intrinsics vector under its index, the index
    being the entry of frame_to_intr_map for its frame at the start of the
    loop, or 0 when the map has no entry for the frame: the subscript
    [camera_intr_params[intr_idx]] is not checked.  In particular, with an
    empty camera_intr_params one such observation is enough. *)
Theorem X15_index_out_of_range_is_undefined d s loss_func st trks t ts :
  t ∈ trks → ts ∈ history t →
  is_Some (landmark_params s !! id t) →
  is_Some (camera_params s !! frame_id ts) →
  camera_intr_params s !!
    default 0%nat (bs_frame_to_intr_map st !! frame_id ts) = None →
  add_residuals d s loss_func st trks = None.
Proof.
  intros Ht Hts Hlm Hcam Hout.
  destruct (add_residuals d s loss_func st trks) as [st'|] eqn:Hrun; [|done].
  assert (Hdef : is_Some (foldl_opt (add_flat d s loss_func) st (observations trks))).
  { rewrite <- add_residuals_flat, Hrun. by eexists. }
  rewrite add_flat_fold_defined in Hdef.
  destruct (Hdef (id t, ts)) as [K HK].
  - apply elem_of_observations. by exists t.
  - by split.
  - simpl in HK. congruence.
Qed.

End MoreFacts.

(** * Properties of the plugin explorer *)

Module PluginExplorerFacts.
Import PluginExplorer.

Lemma app_cons a (s1 s2 : string) : String a s1 +:+ s2 = String a (s1 +:+ s2).
Proof. reflexivity. Qed.

Lemma app_nil_l (s : string) : "" +:+ s = s.
Proof. reflexivity. Qed.

Lemma app_nil_r (s : string) : s +:+ "" = s.
Proof. induction s as [|a s IH]; [done | by rewrite app_cons, IH]. Qed.

Lemma app_assoc (s1 s2 s3 : string) : (s1 +:+ s2) +:+ s3 = s1 +:+ s2 +:+ s3.
Proof. induction s1 as [|a s1 IH]; [done | by rewrite !app_cons, IH]. Qed.

Lemma length_app (s1 s2 : string) :
  String.length (s1 +:+ s2) = (String.length s1 + String.length s2)%nat.
Proof.
  induction s1 as [|a s1 IH]; [done|]. rewrite app_cons. simpl. by rewrite IH.
Qed.

(** ** join *)

Lemma join_acc (delim : string) vec : ∀ acc,
  foldl (λ res s, res +:+ s +:+ delim) acc vec =
    acc +:+ foldl (λ res s, res +:+ s +:+ delim) "" vec.
Proof.
  induction vec as [|s vec IH]; intros acc; simpl; [by rewrite app_nil_r|].
  rewrite IH, (IH ("" +:+ s +:+ delim)), app_nil_l. by rewrite app_assoc.
Qed.

Lemma join_cons s vec delim : join (s :: vec) delim = s +:+ delim +:+ join vec delim.
Proof. unfold join. simpl. by rewrite join_acc, app_nil_l, app_assoc. Qed.

(** X10: join writes every element followed by the delimiter, the last one
    too: the result is the concatenation of the elements each with the
    delimiter appended, and its length is the total length of the elements
    plus one delimiter length per element. *)
Theorem X10_join_delimiter_after_every_element (vec : list string) (delim : string) :
  join vec delim = concat_strings ((λ s, s +:+ delim) <$> vec) ∧
  String.length (join vec delim) =
    (sum_list (String.length <$> vec) + length vec * String.length delim)%nat.
Proof.
  induction vec as [|s vec [IH1 IH2]]; [done|].
  rewrite join_cons. split.
  - rewrite fmap_cons. simpl. by rewrite IH1, app_assoc.
  - rewrite !length_app, IH2, fmap_cons. simpl. lia.
Qed.

(** ** std::string find and replace *)

Lemma find_app_first c pre post :
  find c pre = None → find c (pre +:+ String c post) = Some (String.length pre).
Proof.
  induction pre as [|a pre IH].
  - intros _. rewrite app_nil_l. simpl. by rewrite decide_True.
  - rewrite app_cons. simpl. case_decide; [done|].
    destruct (find c pre); [done|]. intros _. by rewrite IH.
Qed.

Lemma take_app_length pre post : take (String.length pre) (pre +:+ post) = pre.
Proof.
  induction pre as [|a pre IH]; [by destruct post|].
  rewrite app_cons. simpl. by rewrite IH.
Qed.

Lemma drop_app_length pre post : drop (String.length pre) (pre +:+ post) = post.
Proof. induction pre as [|a pre IH]; [done|]. rewrite app_cons. simpl. apply IH. Qed.

Lemma replace_first c str pre post :
  replace (String.length pre) 1 str (pre +:+ String c post) = pre +:+ str +:+ post.
Proof.
  unfold replace. rewrite take_app_length. do 2 f_equal.
  replace (String.length pre + 1)%nat with (String.length (pre +:+ String c ""))
    by (rewrite length_app; simpl; lia).
  replace (pre +:+ String c post) with ((pre +:+ String c "") +:+ post)
    by (by rewrite app_assoc).
  apply drop_app_length.
Qed.

Lemma find_none_or_split c s :
  find c s = None ∨
  ∃ pre post, s = pre +:+ String c post ∧ find c pre = None.
Proof.
  induction s as [|a s IH]; simpl; [by left|].
  case_decide as Ha.
  - right. exists "", s. by subst.
  - destruct IH as [->|(pre & post & -> & Hpre)]; [by left|].
    right. exists (String a pre), post. rewrite app_cons. simpl.
    rewrite decide_False by done. by rewrite Hpre.
Qed.

Section ToolFacts.
Context `{ExplorerEnv}.

(** X11: print_functor writes nothing for the seven attributes displayed
    elsewhere.  For any other attribute it writes one line with the key and
    the quoted value, in which the first '\004' of the value, if there is one,
    is replaced by a closing quote, two colons and an opening quote; whatever
    follows that first '\004', further '\004' included, is written as it
    is. *)
Theorem X11_print_functor_splits_at_first_eot key val :
  (canonical key → print_functor key val = "") ∧
  (¬ canonical key →
     (find EOT val = None →
        print_functor key val =
          "    * " +:+ key +:+ ": " +:+ dquote +:+ val +:+ dquote +:+ endl) ∧
     (∀ pre post, val = pre +:+ String EOT post → find EOT pre = None →
        print_functor key val =
          "    * " +:+ key +:+ ": " +:+ dquote +:+
          (pre +:+ (dquote +:+ "  ::  " +:+ dquote) +:+ post) +:+ dquote +:+ endl)).
Proof.
  unfold canonical, print_functor. split.
  - intros Hc. by rewrite decide_False.
  - intros Hc. rewrite decide_True by (by apply dec_stable).
    split.
    + by intros ->.
    + intros pre post -> Hpre.
      by rewrite (find_app_first _ _ _ Hpre), replace_first.
Qed.

Lemma concat_strings_cons s (l : list string) :
  concat_strings (s :: l) = s +:+ concat_strings l.
Proof. reflexivity. Qed.

Lemma fmap_pointwise {A B} (f g : A → B) (l : list A) :
  (∀ x, f x = g x) → f <$> l = g <$> l.
Proof. intros Hfg. induction l as [|x l IH]; [done|]. by rewrite !fmap_cons, Hfg, IH. Qed.

(** X12: the tool exits with status 1 exactly when the arguments parse, help
    is not asked for and the expression given with --fact does not compile;
    in every other case, a problem parsing the arguments included, the status
    is 0.  When something is written to the error stream nothing is written to
    the output stream. *)
Theorem X12_exit_status_and_error_stream parsed vpm :
  (exit_status (main parsed vpm) = 1 ↔
     ∃ o, parsed = Some o ∧ opt_help o = false ∧ opt_fact_regex o ≠ "" ∧
          regex_compile (opt_fact_regex o) = None) ∧
  (exit_status (main parsed vpm) ≠ 1 → exit_status (main parsed vpm) = 0) ∧
  (stderr (main parsed vpm) ≠ "" → stdout (main parsed vpm) = "") ∧
  (parsed = None →
     exit_status (main parsed vpm) = 0 ∧ stderr (main parsed vpm) ≠ "").
Proof.
  unfold main. destruct parsed as [o|]; simpl.
  2:{ repeat split; try done. by intros (o & ? & _). }
  destruct (opt_help o) eqn:Hhelp; simpl.
  { repeat split; try done. intros (o' & [= <-] & ? & _). congruence. }
  case_bool_decide as Hre; simpl.
  { repeat split; try done. intros (o' & [= <-] & _ & ? & _). done. }
  destruct (regex_compile (opt_fact_regex o)) as [r|] eqn:Hcomp; simpl.
  - repeat split; try done. intros (o' & [= <-] & _ & _ & ?). congruence.
  - repeat split; try done. intros _. by exists o.
Qed.

(** X13: the options --config and the hidden-entries flag and the plugin name
    given with --plugin-name are read by nothing, and --detail is overridden by
    --brief: two runs whose options differ only in these (in --detail only
    when --brief is set) write the same and exit alike. *)
Theorem X13_options_without_effect o o' vpm :
  opt_help o = opt_help o' → opt_path_list o = opt_path_list o' →
  opt_brief o = opt_brief o' → opt_modules o = opt_modules o' →
  opt_files o = opt_files o' → opt_path o = opt_path o' →
  opt_fact_regex o = opt_fact_regex o' →
  (opt_brief o = false → opt_detail o = opt_detail o') →
  main (Some o) vpm = main (Some o') vpm.
Proof.
  intros Hhelp Hpl Hbrief Hmod Hfiles Hpath Hre Hdetail.
  assert (Hfact : ∀ fact, display_factory o fact = display_factory o' fact).
  { intros fact. unfold display_factory. rewrite <- Hbrief.
    destruct (opt_brief o); [done|]. by rewrite <- Hdetail. }
  assert (Htype : ∀ re it, display_type o re it = display_type o' re it).
  { intros re it. unfold display_type.
    by rewrite (fmap_pointwise _ _ _ Hfact). }
  assert (Hlist : ∀ re, listing o re vpm = listing o' re vpm).
  { intros re. unfold listing. rewrite <- Hpl, <- Hmod, <- Hfiles, <- Hpath.
    by rewrite (fmap_pointwise _ _ _ (Htype re)). }
  unfold main. rewrite <- Hhelp, <- Hre.
  destruct (opt_help o); [done|].
  destruct (negb (bool_decide (opt_fact_regex o = ""))); [|by rewrite Hlist].
  destruct (regex_compile (opt_fact_regex o)); [by rewrite Hlist | done].
Qed.

(** X14: with a factory expression, the listing of the factories is the
    listing without expression of those interface types whose demangled name
    the expression finds: the types it does not find leave no trace in the
    output. *)
Theorem X14_factory_filter o r (pm : list (string * list plugin_factory)) :
  concat_strings (display_type o (Some r) <$> pm) =
  concat_strings
    (display_type o None <$>
       filter (λ it, regex_find r (demangle it.1) = true) pm).
Proof.
  induction pm as [|it pm IH]; [done|].
  rewrite fmap_cons, concat_strings_cons, IH.
  destruct (regex_find r (demangle it.1)) eqn:Hfind.
  - rewrite filter_cons_True by done. rewrite fmap_cons, concat_strings_cons.
    f_equal. unfold display_type. by rewrite Hfind.
  - rewrite filter_cons_False by (by rewrite Hfind).
    unfold display_type at 1. rewrite Hfind. apply app_nil_l.
Qed.

End ToolFacts.

End PluginExplorerFacts.

(** * The statements at concrete inputs *)

Import Example.

Lemma C1_null_input_returns_witness :
  (@None camera_map = None ∨ Some lms = None ∨ Some trks = None) ∧
  let r := optimize huber None (Some lms) (Some trks) in
  status r = Returned ∧ ¬ problem_constructed r ∧ ¬ solver_invoked r ∧
  out_cameras r = None ∧ out_landmarks r = Some lms.
Proof.
  split; [by left|].
  apply (C1_null_input_returns huber None (Some lms) (Some trks)). by left.
Defined.

(** An empty camera collection does not stop the call: no error is reported,
    the problem is constructed and the solver runs. *)
Lemma C1_empty_collection_counterexample :
  ¬ missing_input_claim huber (Some empty_cams) (Some lms) (Some trks).
Proof.
  intros Hclaim. destruct Hclaim as (_ & Hnot & _); [by left|].
  apply Hnot.
  by apply (optimize_complete_solves huber empty_cams lms trks
              (Extraction ∅ [] ∅ ∅)).
Qed.

(** A null collection makes the call return without reporting anything. *)
Lemma null_input_reports_nothing :
  ¬ error_reported (optimize huber None (Some lms) (Some trks)).
Proof.
  intros [Hthrew | (e & He & _)]; [done|]. by apply elem_of_nil in He.
Qed.

Lemma extracted_eq :
  extract_camera_parameters (cam_opts huber) cams = Some extracted.
Proof. vm_compute. reflexivity. Qed.

Lemma C2_validity_check_is_separate_witness :
  extract_camera_parameters (cam_opts unchecked) cams = Some extracted ∧
  (check_configuration unchecked None).1 = (IsValid (options unchecked)).1 ∧
  (check_configuration unchecked None).2 =
    (if (IsValid (options unchecked)).1 then [EvIsValid (options unchecked)]
     else [EvIsValid (options unchecked);
           EvLog ERROR (IsValid (options unchecked)).2]) ∧
  let r := optimize unchecked (Some cams) (Some lms) (Some trks) in
  count_events is_is_valid (trace r) = 0%nat ∧
  (∃ p, EvSolve (options unchecked) p ∈ trace r) ∧ status r = Returned.
Proof.
  split; [exact extracted_eq|].
  exact (C2_validity_check_is_separate unchecked None cams lms trks extracted
           extracted_eq).
Defined.

(** With invalid solver options the call still invokes the solver. *)
Lemma C2_invalid_options_counterexample :
  ¬ checked_before_solve unchecked
      (optimize unchecked (Some cams) (Some lms) (Some trks)).
Proof.
  intros [_ Hinvalid]. destruct Hinvalid as [_ Hnot]; [reflexivity|].
  apply Hnot.
  exact (proj2 (proj2 (optimize_complete_solves unchecked cams lms trks extracted
                         extracted_eq))).
Qed.

Lemma C3_untouched_entities_pass_through_witness :
  extract_camera_parameters (cam_opts huber) cams = Some extracted ∧
  ∃ p out_c out_l,
    built_problem (optimize huber (Some cams) (Some lms) (Some trks)) = Some p ∧
    out_cameras (optimize huber (Some cams) (Some lms) (Some trks)) = Some out_c ∧
    out_landmarks (optimize huber (Some cams) (Some lms) (Some trks)) = Some out_l ∧
    (∀ t lm, lms !! t = Some lm → LmBlock t ∉ problem_blocks p →
       out_l !! t = Some lm) ∧
    (∀ f c, cameras_of cams !! f = Some c → CamBlock f ∉ problem_blocks p →
       ∃ c', cameras_of out_c !! f = Some c' ∧
         cam_extrinsics c' = cam_extrinsics c ∧
         ((∀ i, int_map extracted !! f = Some i → IntrBlock i ∉ problem_blocks p) →
          camera_intrinsics_values out_c c' =
            flatten_intrinsics (num_distortion_params (lens_distortion_type (cam_opts huber)))
              <$> camera_intrinsics_values cams c)).
Proof.
  split; [exact extracted_eq|].
  exact (C3_untouched_entities_pass_through huber cams lms trks extracted
           extracted_eq).
Defined.

(** A camera that no track observes, whose intrinsics hold two distortion
    coefficients while the configured model has none, does not come out
    unchanged: its intrinsics are cut to the five values of the model. *)
Lemma C3_untouched_camera_counterexample :
  ¬ untouched_unchanged_claim huber wide_cams lms trks.
Proof.
  intros Hclaim.
  destruct (Hclaim wide_extracted wide_problem wide_out_cameras wide_out_landmarks)
    as [_ Hcam]; [vm_compute; reflexivity ..|].
  destruct (Hcam 3 (Camera (replicate 6 2%float) (Some 2%nat)))
    as (c' & Hc' & _ & Hintr).
  - reflexivity.
  - split.
    + vm_compute. intros Hin.
      repeat (apply elem_of_cons in Hin as [Hin|Hin]; [discriminate|]).
      by apply elem_of_nil in Hin.
    + intros i Hi. vm_compute in Hi. injection Hi as <-.
      vm_compute. intros Hin.
      repeat (apply elem_of_cons in Hin as [Hin|Hin]; [discriminate|]).
      by apply elem_of_nil in Hin.
  - vm_compute in Hc'. injection Hc' as <-.
    vm_compute in Hintr. discriminate.
Qed.

(** What the untouched camera of frame 3 goes in with and comes out with. *)
Example wide_camera_truncated :
  camera_intrinsics_values wide_cams (Camera (replicate 6 2%float) (Some 2%nat)) =
    Some [4; 4; 4; 4; 4; 9; 9]%float ∧
  (c ← cameras_of wide_out_cameras !! 3; camera_intrinsics_values wide_out_cameras c) =
    Some [4; 4; 4; 4; 4]%float.
Proof. vm_compute. done. Qed.

Lemma extracted_index_in_range :
  index_in_range (initial_params lms extracted) (int_map extracted).
Proof.
  eapply extraction_index_in_range.
  exact (extract_camera_parameters_ok (cam_opts huber) cams extracted extracted_eq).
Qed.

Lemma C4_residual_per_valid_observation_witness :
  index_in_range (initial_params lms extracted) (int_map extracted) ∧
  ∃ st added,
    add_residuals huber (initial_params lms extracted) (Some (HUBER_LOSS, 1%float))
                  (BuildState empty_problem (int_map extracted) false) trks = Some st ∧
    residual_blocks (bs_problem st) = residual_blocks empty_problem ++ added ∧
    added =
      (t ← trks; ts ← history t;
       if decide (is_Some (landmark_params (initial_params lms extracted) !! id t) ∧
                  is_Some (camera_params (initial_params lms extracted) !! frame_id ts))
       then [ResidualBlock
               (create_cost_func (lens_distortion_type (cam_opts huber))
                                 (v2x (feat_loc ts)) (v2y (feat_loc ts)))
               (Some (HUBER_LOSS, 1%float))
               [IntrBlock (default 0%nat (int_map extracted !! frame_id ts));
                CamBlock (frame_id ts); LmBlock (id t)]]
       else []) ∧
    ∀ rb, rb ∈ added →
      ∃ i f t, rb_params rb = [IntrBlock i; CamBlock f; LmBlock t] ∧
        int_map extracted !! f = Some i ∧
        is_Some (camera_intr_params (initial_params lms extracted) !! i) ∧
        is_Some (camera_params (initial_params lms extracted) !! f) ∧
        is_Some (landmark_params (initial_params lms extracted) !! t).
Proof.
  split; [exact extracted_index_in_range|].
  exact (C4_residual_per_valid_observation huber (initial_params lms extracted)
           (Some (HUBER_LOSS, 1%float)) (int_map extracted) empty_problem false
           trks extracted_index_in_range).
Defined.

Lemma C5_constant_intrinsics_policy_witness :
  let p' := apply_constraints (H := env) 0 [0; 1; 2; 3; 4; 0] (int_params extracted)
                              empty_problem in
  ((5 + 0 < N.of_nat (length [0; 1; 2; 3; 4; 0]))%N ∧
   constant_blocks p' = [IntrBlock 0; IntrBlock 1] ∧ parameterizations p' = []) ∧
  apply_constraints (H := env) 0 [] (int_params extracted) empty_problem = empty_problem.
Proof.
  pose proof (C5_constant_intrinsics_policy 0 [0; 1; 2; 3; 4; 0]
                (int_params extracted) empty_problem) as [Hconst _].
  pose proof (C5_constant_intrinsics_policy 0 [] (int_params extracted)
                empty_problem) as [_ Hfree].
  split; [split; [done | exact (Hconst eq_refl)] | exact (Hfree eq_refl)].
Defined.

Lemma C6_membership_preserved_witness :
  status (optimize huber (Some cams) (Some lms) (Some trks)) = Returned ∧
  frame_ids (out_cameras (optimize huber (Some cams) (Some lms) (Some trks))) =
    frame_ids (Some cams) ∧
  track_ids (out_landmarks (optimize huber (Some cams) (Some lms) (Some trks))) =
    track_ids (Some lms).
Proof.
  assert (Hret : status (optimize huber (Some cams) (Some lms) (Some trks)) = Returned)
    by (vm_compute; reflexivity).
  split; [exact Hret|].
  exact (C6_membership_preserved huber (Some cams) (Some lms) (Some trks) Hret).
Defined.

(** A call with a null camera collection creates no loss function at all. *)
Lemma C7_null_input_counterexample :
  ¬ one_loss_instance_claim (optimize huber None (Some lms) (Some trks)).
Proof. intros [Hcreated _]. vm_compute in Hcreated. discriminate. Qed.

Lemma C7_loss_function_ownership_witness :
  let r := optimize huber (Some cams) (Some lms) (Some []) in
  is_Some (built_problem r) ∧
  loss_created (trace r) = 1%nat ∧ loss_freed (trace r) = 1%nat.
Proof.
  destruct (C7_loss_function_ownership huber (Some cams) (Some lms) (Some []))
    as (_ & Hfreed & _ & Hbuilt & Hrun).
  destruct (Hbuilt cams eq_refl) as [p Hp];
    [by eexists | by eexists | exists extracted; exact extracted_eq |].
  destruct (Hrun p Hp) as (_ & Hcreated & _).
  split; [by eexists|]. split; [exact Hcreated|].
  etransitivity; [exact Hfreed | exact Hcreated].
Defined.

Lemma C8_landmarks_rebuilt_witness :
  extract_camera_parameters (cam_opts huber) cams = Some extracted ∧
  lms !! 7 = Some (Landmark (Vec3 1 2 3) (Some (Rgb 255 0 0)) None) ∧
  ∃ p out_l lm' v,
    built_problem (optimize huber (Some cams) (Some lms) (Some trks)) = Some p ∧
    solved_params (optimize huber (Some cams) (Some lms) (Some trks)) =
      Some (run_solver (options huber) p (initial_params lms extracted)).1 ∧
    landmark_params (run_solver (options huber) p (initial_params lms extracted)).1 !! 7
      = Some v ∧
    out_landmarks (optimize huber (Some cams) (Some lms) (Some trks)) = Some out_l ∧
    out_l !! 7 = Some lm' ∧
    vector_3d_data (loc lm') = v ∧
    color lm' = Some (Rgb 255 0 0) ∧ covar lm' = None.
Proof.
  split; [exact extracted_eq|]. split; [reflexivity|].
  exact (C8_landmarks_rebuilt huber cams lms trks extracted 7
           (Landmark (Vec3 1 2 3) (Some (Rgb 255 0 0)) None)
           extracted_eq eq_refl).
Defined.

Lemma C9_intrinsics_index_in_range_witness :
  extract_camera_parameters (cam_opts huber) cams = Some extracted ∧
  (∀ f, is_Some (ext_params extracted !! f) →
     ∃ i, int_map extracted !! f = Some i ∧ (i < length (int_params extracted))%nat) ∧
  ∀ loss_func p used trks, ∃ st,
    add_residuals huber (initial_params lms extracted) loss_func
                  (BuildState p (int_map extracted) used) trks = Some st ∧
    bs_frame_to_intr_map st = int_map extracted.
Proof.
  split; [exact extracted_eq|].
  exact (C9_intrinsics_index_in_range huber cams lms extracted extracted_eq).
Defined.

Lemma C10_check_configuration_ignores_argument_witness :
  options huber = options (algo valid_options CAUCHY_LOSS [0]) ∧
  check_configuration huber None =
    check_configuration (algo valid_options CAUCHY_LOSS [0])
                        (Some {["verbose" := "true"]}).
Proof.
  split; [reflexivity|].
  exact (C10_check_configuration_ignores_argument huber
           (algo valid_options CAUCHY_LOSS [0]) None
           (Some {["verbose" := "true"]}) eq_refl).
Defined.

(** ** The example call, evaluated *)

Example example_residuals :
  (λ p, rb_params <$> residual_blocks p) <$>
    built_problem (optimize huber (Some cams) (Some lms) (Some trks)) =
  Some [[IntrBlock 0; CamBlock 1; LmBlock 7]; [IntrBlock 0; CamBlock 2; LmBlock 7]].
Proof. vm_compute. reflexivity. Qed.

Example example_landmarks :
  out_landmarks (optimize huber (Some cams) (Some lms) (Some trks)) =
  Some (<[7 := Landmark (Vec3 1 1 1) (Some (Rgb 255 0 0)) None]>
        (<[8 := Landmark (Vec3 4 5 6) None (Some [1%float])]> ∅)).
Proof. vm_compute. reflexivity. Qed.

Example example_loss_owned :
  let r := optimize huber (Some cams) (Some lms) (Some trks) in
  loss_created (trace r) = 1%nat ∧ loss_freed (trace r) = 1%nat ∧
  count_events is_loss_deleted (trace r) = 0%nat.
Proof. vm_compute. done. Qed.

Example example_loss_deleted :
  let r := optimize huber (Some cams) (Some lms) (Some []) in
  loss_created (trace r) = 1%nat ∧ loss_freed (trace r) = 1%nat ∧
  count_events is_loss_deleted (trace r) = 1%nat.
Proof. vm_compute. done. Qed.

Example example_cameras :
  (λ out, (cam_extrinsics <$> cameras_of out, intrinsics_of out)) <$>
    out_cameras (optimize huber (Some cams) (Some lms) (Some trks)) =
  Some (<[1 := replicate 6 1%float]>
        (<[2 := replicate 6 1%float]> (<[3 := replicate 6 2%float]> ∅)),
        <[0%nat := replicate 5 1%float]> (<[1%nat := replicate 5 4%float]> ∅)).
Proof. vm_compute. reflexivity. Qed.

(** ** The further properties at concrete inputs *)

Lemma miswired_eq :
  add_residuals huber (initial_params lms extracted) (Some (HUBER_LOSS, 1%float))
                bare_state trks = Some miswired.
Proof. vm_compute. reflexivity. Qed.

Lemma X1_completed_loop_residuals_witness :
  add_residuals huber (initial_params lms extracted) (Some (HUBER_LOSS, 1%float))
                bare_state trks = Some miswired ∧
  residual_blocks (bs_problem miswired) =
    residual_blocks (bs_problem bare_state) ++
    (t ← trks; ts ← history t;
     if decide (is_Some (landmark_params (initial_params lms extracted) !! id t) ∧
                is_Some (camera_params (initial_params lms extracted) !! frame_id ts))
     then [ResidualBlock
             (create_cost_func (lens_distortion_type (cam_opts huber))
                               (v2x (feat_loc ts)) (v2y (feat_loc ts)))
             (Some (HUBER_LOSS, 1%float))
             [IntrBlock (default 0%nat (bs_frame_to_intr_map miswired !! frame_id ts));
              CamBlock (frame_id ts); LmBlock (id t)]]
     else []) ∧
  constant_blocks (bs_problem miswired) = constant_blocks (bs_problem bare_state) ∧
  parameterizations (bs_problem miswired) = parameterizations (bs_problem bare_state) ∧
  bs_loss_func_used miswired =
    bs_loss_func_used bare_state ||
    negb (bool_decide (length (residual_blocks (bs_problem miswired)) =
                       length (residual_blocks (bs_problem bare_state)))).
Proof.
  split; [exact miswired_eq|].
  exact (X1_completed_loop_residuals huber (initial_params lms extracted)
           (Some (HUBER_LOSS, 1%float)) bare_state trks miswired miswired_eq).
Defined.

Lemma bare_state_blocks_exist :
  ∀ b, b ∈ problem_blocks (bs_problem bare_state) →
       is_Some (lookup_block (initial_params lms extracted) b).
Proof. intros b Hb. by apply elem_of_nil in Hb. Qed.

Lemma X2_registered_blocks_exist_witness :
  add_residuals huber (initial_params lms extracted) (Some (HUBER_LOSS, 1%float))
                bare_state trks = Some miswired ∧
  (∀ b, b ∈ problem_blocks (bs_problem bare_state) →
        is_Some (lookup_block (initial_params lms extracted) b)) ∧
  ∀ b, b ∈ problem_blocks (bs_problem miswired) →
       is_Some (lookup_block (initial_params lms extracted) b).
Proof.
  split; [exact miswired_eq|]. split; [exact bare_state_blocks_exist|].
  exact (X2_registered_blocks_exist huber (initial_params lms extracted)
           (Some (HUBER_LOSS, 1%float)) bare_state trks miswired miswired_eq
           bare_state_blocks_exist).
Defined.

Lemma X3_frame_to_intr_map_only_grows_witness :
  add_residuals huber (initial_params lms extracted) (Some (HUBER_LOSS, 1%float))
                bare_state trks = Some miswired ∧
  ∀ f, bs_frame_to_intr_map miswired !! f = bs_frame_to_intr_map bare_state !! f ∨
       (bs_frame_to_intr_map bare_state !! f = None ∧
        bs_frame_to_intr_map miswired !! f = Some 0%nat ∧
        is_Some (camera_params (initial_params lms extracted) !! f)).
Proof.
  split; [exact miswired_eq|].
  exact (X3_frame_to_intr_map_only_grows huber (initial_params lms extracted)
           (Some (HUBER_LOSS, 1%float)) bare_state trks miswired miswired_eq).
Defined.

(** The loop did leave entries behind: frames 1 and 2 went to index 0. *)
Example miswired_entries :
  bs_frame_to_intr_map miswired = <[1 := 0%nat]> (<[2 := 0%nat]> ∅).
Proof. vm_compute. reflexivity. Qed.

Lemma stray_trks_unobserved :
  ∀ t ts, t ∈ stray_trks → ts ∈ history t →
    landmark_params (initial_params lms extracted) !! id t = None ∨
    camera_params (initial_params lms extracted) !! frame_id ts = None.
Proof.
  intros t ts Ht Hts. unfold stray_trks in Ht.
  apply elem_of_cons in Ht as [->|Ht]; [by left|].
  apply list_elem_of_singleton in Ht as ->.
  apply list_elem_of_singleton in Hts as ->. by right.
Qed.

Lemma X4_filtered_observations_are_skipped_witness :
  (∀ t ts, t ∈ stray_trks → ts ∈ history t →
     landmark_params (initial_params lms extracted) !! id t = None ∨
     camera_params (initial_params lms extracted) !! frame_id ts = None) ∧
  add_residuals huber (initial_params lms extracted) (Some (HUBER_LOSS, 1%float))
                bare_state stray_trks = Some bare_state.
Proof.
  split; [exact stray_trks_unobserved|].
  exact (X4_filtered_observations_are_skipped huber (initial_params lms extracted)
           (Some (HUBER_LOSS, 1%float)) bare_state stray_trks stray_trks_unobserved).
Defined.

Lemma X6_constant_threshold_is_full_count_witness :
  (5 + 0 < 2 ^ 31)%N ∧
  ((5 + 0 ≤ N.of_nat (length [0; 1; 2; 3; 4]))%N ∧
   constant_blocks (apply_constraints (H := env) 0 [0; 1; 2; 3; 4]
                      (int_params extracted) empty_problem) =
     [IntrBlock 0; IntrBlock 1]) ∧
  ((0 < N.of_nat (length [1; 2]) < 5 + 0)%N ∧
   parameterizations (apply_constraints (H := env) 0 [1; 2]
                        (int_params extracted) empty_problem) =
     [(IntrBlock 0, (5, [1; 2])); (IntrBlock 1, (5, [1; 2]))]).
Proof.
  assert (Hfit : (5 + 0 < 2 ^ 31)%N) by reflexivity.
  assert (Hfull : (5 + 0 ≤ N.of_nat (length [0; 1; 2; 3; 4]))%N) by (by vm_compute).
  assert (Hpart : (0 < N.of_nat (length [1; 2]) < 5 + 0)%N) by (by vm_compute).
  pose proof (X6_constant_threshold_is_full_count 0 [0; 1; 2; 3; 4]
                (int_params extracted) empty_problem Hfit) as [Hconst _].
  pose proof (X6_constant_threshold_is_full_count 0 [1; 2]
                (int_params extracted) empty_problem Hfit) as [_ Hsub].
  split; [exact Hfit|]. split.
  - split; [exact Hfull | exact (proj1 (Hconst Hfull))].
  - split; [exact Hpart | exact (proj2 (Hsub Hpart))].
Defined.

(** From 2^31 on, the size the subset parameterization is built with is
    negative. *)
Example negative_subset_size :
  parameterizations (apply_constraints (H := env) (2 ^ 31) [1; 2] [[]] empty_problem) =
    [(IntrBlock 0, (-2147483643, [1; 2]))].
Proof. vm_compute. reflexivity. Qed.

Lemma X7_landmark_update_undefined_witness :
  (({[9 := [1; 2; 3]%float]} : gmap Z (list float)) !! 9 = Some [1; 2; 3]%float ∧
   (lms !! 9 = None ∨ (length [1; 2; 3]%float < 3)%nat) ∧
   update_landmarks {[9 := [1; 2; 3]%float]} lms = None) ∧
  (({[7 := [1; 2]%float]} : gmap Z (list float)) !! 7 = Some [1; 2]%float ∧
   (lms !! 7 = None ∨ (length [1; 2]%float < 3)%nat) ∧
   update_landmarks {[7 := [1; 2]%float]} lms = None).
Proof.
  assert (Hkey : lms !! 9 = None ∨ (length [1; 2; 3]%float < 3)%nat)
    by (left; reflexivity).
  assert (Hshort : lms !! 7 = None ∨ (length [1; 2]%float < 3)%nat)
    by (right; simpl; lia).
  split.
  - split; [reflexivity|]. split; [exact Hkey|].
    exact (X7_landmark_update_undefined {[9 := [1; 2; 3]%float]} lms 9
             [1; 2; 3]%float eq_refl Hkey).
  - split; [reflexivity|]. split; [exact Hshort|].
    exact (X7_landmark_update_undefined {[7 := [1; 2]%float]} lms 7
             [1; 2]%float eq_refl Hshort).
Defined.

Lemma X8_landmark_update_content_witness :
  dom ({[7 := [9; 8; 7; 6]%float]} : gmap Z (list float)) ⊆ dom lms ∧
  (∀ t p, ({[7 := [9; 8; 7; 6]%float]} : gmap Z (list float)) !! t = Some p →
          (3 ≤ length p)%nat) ∧
  ∃ lms', update_landmarks {[7 := [9; 8; 7; 6]%float]} lms = Some lms' ∧
    dom lms' = dom lms ∧
    (∀ t, ({[7 := [9; 8; 7; 6]%float]} : gmap Z (list float)) !! t = None →
          lms' !! t = lms !! t) ∧
    (∀ t p, ({[7 := [9; 8; 7; 6]%float]} : gmap Z (list float)) !! t = Some p →
       ∃ lm', lms' !! t = Some lm' ∧ vector_3d_data (loc lm') = take 3 p).
Proof.
  assert (Hdom : dom ({[7 := [9; 8; 7; 6]%float]} : gmap Z (list float)) ⊆ dom lms).
  { intros t Ht. apply elem_of_dom in Ht as [p Hp].
    apply lookup_singleton_Some in Hp as [<- _].
    apply elem_of_dom. vm_compute. by eexists. }
  assert (Hthree : ∀ t p,
            ({[7 := [9; 8; 7; 6]%float]} : gmap Z (list float)) !! t = Some p →
            (3 ≤ length p)%nat).
  { intros t p Hp. apply lookup_singleton_Some in Hp as [_ <-]. simpl. lia. }
  split; [exact Hdom|]. split; [exact Hthree|].
  exact (X8_landmark_update_content {[7 := [9; 8; 7; 6]%float]} lms Hdom Hthree).
Defined.

(** The landmark written back from a vector of four values: the fourth is not
    read. *)
Example landmark_from_four_values :
  update_landmarks {[7 := [9; 8; 7; 6]%float]} lms =
    Some (<[7 := Landmark (Vec3 9 8 7) (Some (Rgb 255 0 0)) None]> lms).
Proof. vm_compute. reflexivity. Qed.

Lemma X15_index_out_of_range_is_undefined_witness :
  Track 7 [TrackState 1 (Vec2 10 20)] ∈ [Track 7 [TrackState 1 (Vec2 10 20)]] ∧
  TrackState 1 (Vec2 10 20) ∈ history (Track 7 [TrackState 1 (Vec2 10 20)]) ∧
  is_Some (landmark_params (initial_params lms extracted) !! 7) ∧
  is_Some (camera_params (initial_params lms extracted) !! 1) ∧
  camera_intr_params (initial_params lms extracted) !!
    default 0%nat (({[1 := 5%nat]} : gmap Z nat) !! 1) = None ∧
  add_residuals huber (initial_params lms extracted) (Some (HUBER_LOSS, 1%float))
    (BuildState empty_problem {[1 := 5%nat]} false)
    [Track 7 [TrackState 1 (Vec2 10 20)]] = None.
Proof.
  assert (Ht : Track 7 [TrackState 1 (Vec2 10 20)] ∈
               [Track 7 [TrackState 1 (Vec2 10 20)]]) by apply list_elem_of_here.
  assert (Hts : TrackState 1 (Vec2 10 20) ∈
                history (Track 7 [TrackState 1 (Vec2 10 20)]))
    by apply list_elem_of_here.
  assert (Hlm : is_Some (landmark_params (initial_params lms extracted) !! 7))
    by (vm_compute; by eexists).
  assert (Hcam : is_Some (camera_params (initial_params lms extracted) !! 1))
    by (vm_compute; by eexists).
  assert (Hout : camera_intr_params (initial_params lms extracted) !!
                   default 0%nat (({[1 := 5%nat]} : gmap Z nat) !! 1) = None)
    by (vm_compute; reflexivity).
  split; [exact Ht|]. split; [exact Hts|]. split; [exact Hlm|].
  split; [exact Hcam|]. split; [exact Hout|].
  exact (X15_index_out_of_range_is_undefined huber (initial_params lms extracted)
           (Some (HUBER_LOSS, 1%float))
           (BuildState empty_problem {[1 := 5%nat]} false)
           [Track 7 [TrackState 1 (Vec2 10 20)]]
           (Track 7 [TrackState 1 (Vec2 10 20)]) (TrackState 1 (Vec2 10 20))
           Ht Hts Hlm Hcam Hout).
Defined.

Module PluginExplorerWitnesses.
Import PluginExplorer PluginExplorer.Demo PluginExplorerFacts.

Lemma X11_print_functor_splits_at_first_eot_witness :
  canonical "plugin-name" ∧ print_functor "plugin-name" "ceres" = "" ∧
  ¬ canonical "note" ∧
  find EOT "plain" = None ∧
  print_functor "note" "plain" =
    "    * " +:+ "note" +:+ ": " +:+ dquote +:+ "plain" +:+ dquote +:+ endl ∧
  find EOT "a" = None ∧
  print_functor "note" ("a" +:+ String EOT ("b" +:+ String EOT "c")) =
    "    * " +:+ "note" +:+ ": " +:+ dquote +:+
    ("a" +:+ (dquote +:+ "  ::  " +:+ dquote) +:+ ("b" +:+ String EOT "c")) +:+
    dquote +:+ endl.
Proof.
  assert (Hc : canonical "plugin-name") by (intros (Hn & _); by apply Hn).
  assert (Hn : ¬ canonical "note").
  { intros Hn. apply Hn. repeat split; by vm_compute. }
  assert (Hplain : find EOT "plain" = None) by reflexivity.
  assert (Ha : find EOT "a" = None) by reflexivity.
  destruct (X11_print_functor_splits_at_first_eot "plugin-name" "ceres") as [Hskip _].
  destruct (X11_print_functor_splits_at_first_eot "note" "plain") as [_ Hone].
  destruct (X11_print_functor_splits_at_first_eot "note"
              ("a" +:+ String EOT ("b" +:+ String EOT "c"))) as [_ Htwo].
  split; [exact Hc|]. split; [exact (Hskip Hc)|]. split; [exact Hn|].
  split; [exact Hplain|]. split; [exact (proj1 (Hone Hn) Hplain)|].
  split; [exact Ha|].
  exact (proj2 (Htwo Hn) "a" ("b" +:+ String EOT "c") eq_refl Ha).
Defined.

(** The options of [brief_options] with --config, --detail, the
    hidden-entries flag and a plugin name given as well. *)
Definition loud_options : explorer_options :=
  ExplorerOptions true true false false true false false true [] "" "ceres".

Lemma X13_options_without_effect_witness :
  opt_help brief_options = opt_help loud_options ∧
  opt_path_list brief_options = opt_path_list loud_options ∧
  opt_brief brief_options = opt_brief loud_options ∧
  opt_modules brief_options = opt_modules loud_options ∧
  opt_files brief_options = opt_files loud_options ∧
  opt_path brief_options = opt_path loud_options ∧
  opt_fact_regex brief_options = opt_fact_regex loud_options ∧
  (opt_brief brief_options = false →
   opt_detail brief_options = opt_detail loud_options) ∧
  main (Some brief_options) vpm = main (Some loud_options) vpm.
Proof.
  assert (Hdetail : opt_brief brief_options = false →
                    opt_detail brief_options = opt_detail loud_options)
    by discriminate.
  split; [reflexivity|]. split; [reflexivity|]. split; [reflexivity|].
  split; [reflexivity|]. split; [reflexivity|]. split; [reflexivity|].
  split; [reflexivity|]. split; [exact Hdetail|].
  exact (X13_options_without_effect brief_options loud_options vpm
           eq_refl eq_refl eq_refl eq_refl eq_refl eq_refl eq_refl Hdetail).
Defined.
(** Options whose --fact expression does not compile. *)
Definition unbalanced_options : explorer_options :=
  ExplorerOptions false false false false false false false false [] "(" "".

Lemma X12_exit_status_and_error_stream_witness :
  (∃ o, Some unbalanced_options = Some o ∧ opt_help o = false ∧
        opt_fact_regex o ≠ "" ∧ regex_compile (opt_fact_regex o) = None) ∧
  exit_status (main (Some unbalanced_options) vpm) = 1 ∧
  stdout (main (Some unbalanced_options) vpm) = "" ∧
  exit_status (main None vpm) = 0 ∧ stderr (main None vpm) ≠ "".
Proof.
  assert (Hbad : ∃ o, Some unbalanced_options = Some o ∧ opt_help o = false ∧
                      opt_fact_regex o ≠ "" ∧
                      regex_compile (opt_fact_regex o) = None).
  { exists unbalanced_options. repeat split. discriminate. }
  assert (Herr : stderr (main (Some unbalanced_options) vpm) ≠ "") by discriminate.
  destruct (X12_exit_status_and_error_stream (H := env)
              (Some unbalanced_options) vpm)
    as (Hone & _ & Hquiet & _).
  destruct (X12_exit_status_and_error_stream (H := env) None vpm) as (_ & _ & _ & Hnone).
  split; [exact Hbad|]. split; [exact (proj2 Hone Hbad)|].
  split; [exact (Hquiet Herr)|]. exact (Hnone eq_refl).
Defined.


End PluginExplorerWitnesses.
